(** * Brent oil change-point pipeline: a shallow embedding and its properties

    The development follows the Python sources
      - [src/change_point_model.py]    (class [SingleChangePointModel])
      - [src/time_series_analysis.py]  (class [TimeSeriesAnalyzer])
      - [src/event_analyzer.py]        (class [EventImpactAnalyzer])

    Conventions of the embedding.
      - A [float64] is idealised as an exact rational, extended with the
        IEEE specials the code can produce ([nan], [+inf], [-inf]); rounding
        error of the arithmetic itself is not modelled.
      - A [pd.Timestamp] is an integer count of nanoseconds since the epoch.
      - Python exceptions are values of [exn]; a fallible function returns a
        [result].
      - The external libraries (PyMC's sampler, ArviZ's per-variable
        diagnostics) are parameters of the functions that call them. *)

From Stdlib Require Import String ZArith QArith Qround List Bool.
From Stdlib Require Import Lia Lqa Permutation Sorted.
Import ListNotations.

Set Implicit Arguments.

(** ** Exceptions and fallible computations *)

Inductive exn : Type :=
| ValueError
| IndexError
| TypeError
| AttributeError
| KeyError (key : string)
| LibraryError (name : string).

Inductive result (A : Type) : Type :=
| Ok (a : A)
| Raise (e : exn).

Arguments Ok {A} a.
Arguments Raise {A} e.

Definition bind {A B : Type} (c : result A) (k : A -> result B) : result B :=
  match c with
  | Ok a => k a
  | Raise e => Raise e
  end.

Notation "x <- c ;; k" := (bind c (fun x => k))
  (at level 61, c at next level, right associativity).

(** ** Generic list helpers *)

(** Insertion sort driven by a boolean "may stand before" test; it is
    stable, and any sort agrees with it up to the order of ties. *)
Fixpoint insert_by {A : Type} (before : A -> A -> bool) (x : A) (l : list A) : list A :=
  match l with
  | [] => [x]
  | y :: t => if before x y then x :: l else y :: insert_by before x t
  end.

Fixpoint sort_by {A : Type} (before : A -> A -> bool) (l : list A) : list A :=
  match l with
  | [] => []
  | x :: t => insert_by before x (sort_by before t)
  end.

Definition count {A : Type} (p : A -> bool) (l : list A) : nat :=
  length (filter p l).

(** Element-wise binary operation on two arrays of one shape. *)
Fixpoint map2 {A B C : Type} (f : A -> B -> C) (l : list A) (r : list B) : list C :=
  match l, r with
  | a :: l', b :: r' => f a b :: map2 f l' r'
  | _, _ => []
  end.

(** ** NumPy / pandas numerics *)

Module Numpy.

Local Open Scope Q_scope.

Inductive float : Type :=
| Fin (x : Q)
| PInf
| NInf
| NaN.

Definition Qlt_bool (x y : Q) : bool := negb (Qle_bool y x).

(** [a > b] and [a < b] on floats; every comparison with [nan] is false. *)
Definition gt (a b : float) : bool :=
  match a, b with
  | NaN, _ | _, NaN => false
  | Fin x, Fin y => Qlt_bool y x
  | PInf, PInf => false
  | PInf, _ => true
  | _, PInf => false
  | NInf, _ => false
  | Fin _, NInf => true
  end.

Definition lt (a b : float) : bool := gt b a.

Definition is_nan (a : float) : bool :=
  match a with
  | NaN => true
  | _ => false
  end.

(** True division as pandas performs it: a zero divisor gives an
    infinity, or [nan] for [0/0], never an exception. *)
Definition fdiv (a b : float) : float :=
  match a, b with
  | Fin x, Fin y =>
      if Qeq_bool y 0 then
        if Qeq_bool x 0 then NaN else if Qle_bool 0 x then PInf else NInf
      else Fin (x / y)
  | Fin _, PInf | Fin _, NInf => Fin 0
  | PInf, Fin y => if Qle_bool 0 y then PInf else NInf
  | NInf, Fin y => if Qle_bool 0 y then NInf else PInf
  | _, _ => NaN
  end.

Definition fsub (a b : float) : float :=
  match a, b with
  | Fin x, Fin y => Fin (x - y)
  | NaN, _ | _, NaN => NaN
  | PInf, PInf | NInf, NInf => NaN
  | PInf, _ | _, NInf => PInf
  | NInf, _ | _, PInf => NInf
  end.

(** [np.sort] on finite values. *)
Definition sort (a : list Q) : list Q := sort_by Qle_bool a.

(** [np.median]: middle element, or the mean of the two middle ones;
    [nan] on an empty array. *)
Definition median (a : list Q) : float :=
  let s := sort a in
  let n := length s in
  match n with
  | O => NaN
  | _ =>
      if Nat.odd n then Fin (nth (n / 2)%nat s 0)
      else Fin ((nth (n / 2 - 1)%nat s 0 + nth (n / 2)%nat s 0) / 2)
  end.

Definition lerp (a b t : Q) : Q := a + (b - a) * t.

(** The default ("linear") method of [np.quantile] on a sorted array:
    virtual index [(n-1)*q], its two neighbours, linear interpolation. *)
Definition linear_quantile (s : list Q) (q : Q) : Q :=
  let n := length s in
  let virtual := inject_Z (Z.of_nat n - 1) * q in
  let previous := Z.to_nat (Qfloor virtual) in
  let next := Nat.min (S previous) (n - 1)%nat in
  let gamma := virtual - inject_Z (Qfloor virtual) in
  lerp (nth previous s 0) (nth next s 0) gamma.

(** [np.quantile(a, q)]: [q] outside [0,1] is a [ValueError]; an empty
    array has no last element to partition around ([IndexError]). *)
Definition quantile (a : list Q) (q : Q) : result Q :=
  if negb (Qle_bool 0 q && Qle_bool q 1) then Raise ValueError
  else match a with
       | [] => Raise IndexError
       | _ => Ok (linear_quantile (sort a) q)
       end.

(** [np.percentile(a, [p_lo, p_hi])]. *)
Definition percentile (a : list Q) (p_lo p_hi : Q) : result (Q * Q) :=
  lo <- quantile a (p_lo / 100) ;;
  hi <- quantile a (p_hi / 100) ;;
  Ok (lo, hi).

(** [np.round]: to the nearest integer, ties to the even one. *)
Definition round (x : Q) : Z :=
  let f := Qfloor x in
  match Qcompare (x - inject_Z f) (1 # 2) with
  | Lt => f
  | Gt => (f + 1)%Z
  | Eq => if Z.even f then f else (f + 1)%Z
  end.

(** Python's [int(x)] on a finite float: truncation toward zero. *)
Definition py_int (x : Q) : Z :=
  if Qle_bool 0 x then Qfloor x else Qceiling x.

(** [np.mean] of a boolean array: the number of [True] over the size;
    [nan] on an empty array. *)
Definition mean_bool (l : list bool) : float :=
  match l with
  | [] => NaN
  | _ => Fin (inject_Z (Z.of_nat (count (fun b => b) l))
              / inject_Z (Z.of_nat (length l)))
  end.

(** Positional indexing [index[i]] of a pandas index / NumPy array:
    negative positions count from the end, anything else out of range
    raises [IndexError]. *)
Definition getitem {A : Type} (l : list A) (i : Z) : result A :=
  let n := Z.of_nat (length l) in
  let pos := if (i <? 0)%Z then (n + i)%Z else i in
  if ((0 <=? pos) && (pos <? n))%Z then
    match nth_error l (Z.to_nat pos) with
    | Some x => Ok x
    | None => Raise IndexError
    end
  else Raise IndexError.

End Numpy.

(** ** Python dictionaries with string keys

    Values met in the impact dictionary: a scalar float, or the two-element
    array that [np.percentile] returns. *)

Inductive pyval : Type :=
| Float (x : Numpy.float)
| Pair (lo hi : Q).

Definition dict : Type := list (string * pyval).

Fixpoint lookup (k : string) (d : dict) : option pyval :=
  match d with
  | [] => None
  | (k', v) :: t => if String.eqb k k' then Some v else lookup k t
  end.

Definition keys (d : dict) : list string := map fst d.

(** ** [src/change_point_model.py] *)

Module ChangePointModel.

Import Numpy.
Local Open Scope Q_scope.
Local Open Scope string_scope.

(** One posterior draw: the values of the five tracked variables at one
    (chain, draw) position. *)
Record Draw : Type := {
  tau : Q;
  mu1 : Q;
  mu2 : Q;
  sigma1 : Q;
  sigma2 : Q
}.

(** The posterior group of an [az.InferenceData]: every variable shares
    the dimensions (chain, draw). *)
Definition InferenceData : Type := list (list Draw).

(** [trace.posterior[v].values.flatten()]: chain-major pooling. *)
Definition posterior_flatten (v : Draw -> Q) (trace : InferenceData) : list Q :=
  concat (map (map v) trace).

Inductive Prior : Type :=
| Uniform (lower upper : Z)
| Normal (mu sigma : Q)
| HalfNormal (sigma : Q).

(** What [build_model] declares inside [pm.Model()]: the five priors, the
    observation positions [np.arange(n_obs)] that the likelihood compares
    with tau, and the observed series. *)
Record Model : Type := {
  prior_tau_raw : Prior;
  prior_mu1 : Prior;
  prior_mu2 : Prior;
  prior_sigma1 : Prior;
  prior_sigma2 : Prior;
  idx : list nat;
  observed : list Q
}.

Record SingleChangePointModel : Type := {
  data : list Q;
  dates : list Z;
  model : option Model;
  trace : option InferenceData;
  tau_posterior : option (list Q)
}.

Definition __init__ (data : list Q) (dates : list Z) : result SingleChangePointModel :=
  if negb (length data =? length dates)%nat then Raise ValueError
  else Ok {| data := data;
             dates := dates;
             model := None;
             trace := None;
             tau_posterior := None |}.

Definition build_model (self : SingleChangePointModel) : SingleChangePointModel * Model :=
  let n_obs := length (data self) in
  let m := {| prior_tau_raw := Uniform 30 (Z.of_nat n_obs - 30);
              prior_mu1 := Normal 0 0.05;
              prior_mu2 := Normal 0 0.05;
              prior_sigma1 := HalfNormal 0.05;
              prior_sigma2 := HalfNormal 0.05;
              idx := seq 0 n_obs;
              observed := data self |} in
  ({| data := data self;
      dates := dates self;
      model := Some m;
      trace := trace self;
      tau_posterior := tau_posterior self |}, m).

Record SampleConfig : Type := {
  draws : nat;
  tune : nat;
  chains : nat;
  target_accept : Q;
  random_seed : Z;
  progressbar : bool;
  cores : nat
}.

(** The keyword arguments [sample] fixes: seed 42, no progress bar, one
    core. *)
Definition sample_config (draws tune chains : nat) (target_accept : Q) : SampleConfig :=
  {| draws := draws;
     tune := tune;
     chains := chains;
     target_accept := target_accept;
     random_seed := 42;
     progressbar := false;
     cores := 1 |}.

Section Sampling.

(** [pm.sample] run inside the model context: the external sampler. *)
Variable pm_sample : Model -> SampleConfig -> result InferenceData.

Definition sample (self : SingleChangePointModel)
           (draws tune chains : nat) (target_accept : Q)
  : result (SingleChangePointModel * InferenceData) :=
  let '(self, m) :=
    match model self with
    | None => build_model self
    | Some m => (self, m)
    end in
  tr <- pm_sample m (sample_config draws tune chains target_accept) ;;
  Ok ({| data := data self;
         dates := dates self;
         model := model self;
         trace := Some tr;
         tau_posterior := tau_posterior self |}, tr).

End Sampling.

(** [DataFrame.round] on one entry: [np.round] to the given number of
    decimals, ties to even; [nan] and the infinities stay as they are. *)
Definition round_decimals (decimals : nat) (x : float) : float :=
  match x with
  | Fin q =>
      let scale := inject_Z (10 ^ Z.of_nat decimals) in
      Fin (inject_Z (round (q * scale)) / scale)
  | _ => x
  end.

(** One row of the table [az.summary] returns, reduced to the two columns
    that are read. *)
Record SummaryRow : Type := {
  var_name : string;
  r_hat : float;
  ess_bulk : float
}.

Record ConvergenceReport : Type := {
  r_hat_max : float;
  ess_min : float;
  converged : bool;
  summary : list SummaryRow
}.

Definition pick_max (m y : float) : float := if lt m y then y else m.
Definition pick_min (m y : float) : float := if lt y m then y else m.

(** [Series.max()] and [Series.min()]: [nan] entries are skipped, and the
    result is [nan] when nothing else is left. *)
Definition series_max (col : list float) : float :=
  match filter (fun x => negb (is_nan x)) col with
  | [] => NaN
  | x :: t => fold_left pick_max t x
  end.

Definition series_min (col : list float) : float :=
  match filter (fun x => negb (is_nan x)) col with
  | [] => NaN
  | x :: t => fold_left pick_min t x
  end.

Section Diagnostics.

(** ArviZ's per-variable R-hat and bulk effective sample size, as
    computed: [nan] where ArviZ has nothing to compare (a single chain,
    too few draws, a variable that never moves). *)
Variables az_rhat az_ess_bulk : InferenceData -> string -> float.

(** [az.summary(trace, var_names=...)] as called, without [round_to]: one
    row per requested name, with the default rounding of the table,
    [r_hat] to two decimals and [ess_bulk] to none. *)
Definition az_summary (tr : InferenceData) (var_names : list string) : list SummaryRow :=
  map (fun v => {| var_name := v;
                   r_hat := round_decimals 2 (az_rhat tr v);
                   ess_bulk := round_decimals 0 (az_ess_bulk tr v) |}) var_names.

Definition diagnose_convergence (self : SingleChangePointModel) : result ConvergenceReport :=
  match trace self with
  | None => Raise (LibraryError "arviz")
  | Some tr =>
      let summary := az_summary tr ["tau"; "mu1"; "mu2"; "sigma1"; "sigma2"] in
      let r_hat_max := series_max (map r_hat summary) in
      let ess_min := series_min (map ess_bulk summary) in
      Ok {| r_hat_max := r_hat_max;
            ess_min := ess_min;
            converged := lt r_hat_max (Fin 1.05) && gt ess_min (Fin 200);
            summary := summary |}
  end.

End Diagnostics.

Record ChangePointEstimate : Type := {
  mode_index : Z;
  mode_date : Z;
  credible_interval : Z * Z;
  samples : list Q
}.

Definition extract_change_point_date (self : SingleChangePointModel) (credible_interval : Q)
  : result (SingleChangePointModel * ChangePointEstimate) :=
  match trace self with
  | None => Raise AttributeError
  | Some tr =>
      let tau_samples := posterior_flatten tau tr in
      match median tau_samples with
      | Fin med =>
          let tau_mode := py_int (inject_Z (round med)) in
          tau_date <- getitem (dates self) tau_mode ;;
          q_lo <- quantile tau_samples ((1 - credible_interval) / 2) ;;
          let lower_idx := py_int q_lo in
          q_hi <- quantile tau_samples (1 - (1 - credible_interval) / 2) ;;
          let upper_idx := py_int q_hi in
          ci_start <- getitem (dates self) lower_idx ;;
          ci_end <- getitem (dates self) upper_idx ;;
          Ok ({| data := data self;
                 dates := dates self;
                 model := model self;
                 trace := trace self;
                 tau_posterior := Some tau_samples |},
              {| mode_index := tau_mode;
                 mode_date := tau_date;
                 credible_interval := (ci_start, ci_end);
                 samples := tau_samples |})
      | _ => Raise ValueError
      end
  end.

Definition quantify_impact (self : SingleChangePointModel) : result dict :=
  match trace self with
  | None => Raise AttributeError
  | Some tr =>
      let mu1_samples := posterior_flatten mu1 tr in
      let mu2_samples := posterior_flatten mu2 tr in
      let sigma1_samples := posterior_flatten sigma1 tr in
      let sigma2_samples := posterior_flatten sigma2 tr in
      let mean_shift := map2 Qminus mu2_samples mu1_samples in
      let vol_shift := map2 Qminus sigma2_samples sigma1_samples in
      let mean_shift_median := median mean_shift in
      mean_shift_ci <- percentile mean_shift 2.5 97.5 ;;
      let prob_mean_increase := mean_bool (map (fun x => Qlt_bool 0.01 x) mean_shift) in
      let prob_mean_decrease := mean_bool (map (fun x => Qlt_bool x (-0.01)) mean_shift) in
      let vol_shift_median := median vol_shift in
      vol_shift_ci <- percentile vol_shift 2.5 97.5 ;;
      let prob_vol_increase := mean_bool (map (fun x => Qlt_bool 0.005 x) vol_shift) in
      Ok [ ("mean_shift_median", Float mean_shift_median);
           ("mean_shift_ci", Pair (fst mean_shift_ci) (snd mean_shift_ci));
           ("prob_mean_increase", Float prob_mean_increase);
           ("prob_mean_decrease", Float prob_mean_decrease);
           ("vol_shift_median", Float vol_shift_median);
           ("vol_shift_ci", Pair (fst vol_shift_ci) (snd vol_shift_ci));
           ("prob_vol_increase", Float prob_vol_increase) ]
  end.

(** [plot_posterior_tau]: the histogram and the file written are side
    effects.  What the method computes from the object is the timestamp
    whose calendar date is printed in the legend, [dates[int(median)]]; it
    refuses to run before [extract_change_point_date] has stored the
    samples. *)
Definition plot_posterior_tau (self : SingleChangePointModel) : result Z :=
  match tau_posterior self with
  | None => Raise ValueError
  | Some tau_posterior =>
      match median tau_posterior with
      | Fin median_tau => getitem (dates self) (py_int median_tau)
      | _ => Raise ValueError
      end
  end.

End ChangePointModel.

(** ** [src/time_series_analysis.py] *)

Module TimeSeriesAnalysis.

Import Numpy.
Local Open Scope Q_scope.

Record Row : Type := {
  Date : Z;
  Price : Q
}.

(** The value of [np.log]: the logarithm of a positive rational is kept
    symbolic, since it is not rational itself. *)
Inductive logval : Type :=
| Ln (x : Q)
| LogPInf
| LogNInf
| LogNaN.

Record TimeSeriesAnalyzer : Type := {
  df : list Row;
  log_returns : option (list (Z * logval))
}.

(** [Series.shift(1)]: every value moves one position down, the first
    position becomes [nan]. *)
Definition shift1 (s : list float) : list float :=
  match s with
  | [] => []
  | _ => NaN :: removelast s
  end.

(** [np.log]: [-inf] at zero and [nan] below it, both with a warning only. *)
Definition np_log (x : float) : logval :=
  match x with
  | Fin r => if Qlt_bool 0 r then Ln r
             else if Qeq_bool r 0 then LogNInf else LogNaN
  | PInf => LogPInf
  | NInf => LogNaN
  | NaN => LogNaN
  end.

Definition notna (v : logval) : bool :=
  match v with
  | LogNaN => false
  | _ => true
  end.

(** [Series.dropna()]: infinities are not missing values. *)
Definition dropna (s : list logval) : list logval := filter notna s.

Definition compute_log_returns (self : TimeSeriesAnalyzer)
  : result (TimeSeriesAnalyzer * list (Z * logval)) :=
  let price := map (fun r => Fin (Price r)) (df self) in
  let values := dropna (map np_log (map2 fdiv price (shift1 price))) in
  let index := map Date (tl (df self)) in
  if negb (length values =? length index)%nat then Raise ValueError
  else
    let log_returns := combine index values in
    Ok ({| df := df self; log_returns := Some log_returns |}, log_returns).

(** The dictionary returned by [adf_test]; [interpretation] is the label
    and the verdict word of the formatted sentence. *)
Record AdfReport : Type := {
  statistic : Q;
  p_value : Q;
  stationary : bool;
  interpretation : string * string
}.

Section Stationarity.

Local Open Scope string_scope.

(** statsmodels' [adfuller(series, autolag='AIC')], reduced to the two
    entries of its result that are read: the statistic and the p-value.
    It is one Python function; here it is applied to a price array and to
    a log-return array, which have different types, hence two
    parameters. *)
Variable adfuller_prices : list Q -> result (Q * Q).
Variable adfuller_returns : list logval -> result (Q * Q).

Definition adf_test {V : Type} (adfuller : list V -> result (Q * Q)) (isna : V -> bool)
           (series : list V) (label : string) : result AdfReport :=
  let clean_series := filter (fun v => negb (isna v)) series in
  if (length clean_series <? 10)%nat then Raise ValueError
  else
    result <- adfuller clean_series ;;
    Ok {| statistic := fst result;
          p_value := snd result;
          stationary := Qlt_bool (snd result) 0.05;
          interpretation :=
            (label, if Qlt_bool (snd result) 0.05 then "STATIONARY" else "NON-STATIONARY") |}.

Definition analyze_stationarity (self : TimeSeriesAnalyzer)
  : result (TimeSeriesAnalyzer * (AdfReport * AdfReport)) :=
  self <- match log_returns self with
          | None => r <- compute_log_returns self ;; Ok (fst r)
          | Some _ => Ok self
          end ;;
  price_adf <- adf_test adfuller_prices (fun _ => false)
                        (map Price (df self)) "Raw Prices" ;;
  match log_returns self with
  | None => Raise AttributeError
  | Some log_returns =>
      returns_adf <- adf_test adfuller_returns (fun v => negb (notna v))
                              (map snd log_returns) "Log Returns" ;;
      Ok (self, (price_adf, returns_adf))
  end.

End Stationarity.

End TimeSeriesAnalysis.

(** ** [src/event_analyzer.py] *)

Module EventAnalyzer.

Import Numpy.
Local Open Scope string_scope.
Local Open Scope Z_scope.

Record Event : Type := {
  date : Z;
  event_type : string;
  description : string;
  region : string
}.

Record EventImpactAnalyzer : Type := {
  events : list Event
}.

(** A matched event with the two columns the method adds. *)
Record EventMatch : Type := {
  event : Event;
  days_from_cp : Z;
  proximity_score : float
}.

Definition day_ns : Z := 86400000000000.

(** [timedelta(days=d)]. *)
Definition timedelta (d : Z) : Z := d * day_ns.

(** [.dt.days] of a time difference: whole days, rounded down. *)
Definition dt_days (delta : Z) : Z := delta / day_ns.

(** Order of [sort_values('proximity_score', ascending=False)]:
    larger scores first, [nan] last. *)
Definition score_before (a b : EventMatch) : bool :=
  if is_nan (proximity_score b) then true
  else if is_nan (proximity_score a) then false
  else negb (lt (proximity_score a) (proximity_score b)).

Definition associate_change_points (self : EventImpactAnalyzer)
           (change_point_date : Z) (window_days : Z) : list EventMatch :=
  let window_start := change_point_date - timedelta window_days in
  let window_end := change_point_date + timedelta window_days in
  let matches :=
    filter (fun e => (window_start <=? date e) && (date e <=? window_end))
           (events self) in
  match matches with
  | [] => []
  | _ =>
      let scored :=
        map (fun e =>
               let days := Z.abs (dt_days (date e - change_point_date)) in
               {| event := e;
                  days_from_cp := days;
                  proximity_score :=
                    fsub (Fin 1) (fdiv (Fin (inject_Z days))
                                       (Fin (inject_Z window_days))) |})
            matches in
      sort_by score_before scored
  end.

(** The slots of the sentence built by [quantify_event_impact]:

    "Following <event_type> event '<description>' (<date>), Bayesian
     analysis detects structural break with <direction> of <magnitude>
     (<probability>% probability). Volatility <verb> by <vol>%."

    [magnitude] prints [(exp(shift) - 1) * 100] with one decimal after
    [magnitude_prefix]; the exponential is not rational, so the slot
    holds the log-scale shift it is computed from. *)
Record Narrative : Type := {
  subject_type : string;
  subject_description : string;
  subject_date : Z;
  direction : string;
  magnitude_prefix : string;
  magnitude_shift : float;
  probability : float;
  vol_verb : string;
  vol_shift : float
}.

(** [d[k]] where the code goes on to use the value as a number. *)
Definition getnum (d : dict) (k : string) : result float :=
  match lookup k d with
  | None => Raise (KeyError k)
  | Some (Float x) => Ok x
  | Some (Pair _ _) => Raise TypeError
  end.

Definition quantify_event_impact (self : EventImpactAnalyzer) (event : Event)
           (impact_results : dict) (price_level_before price_level_after : Q)
  : result Narrative :=
  let event_date := date event in
  let event_desc := description event in
  let event_type := event_type event in
  mean_shift <- getnum impact_results "mean_shift_median" ;;
  p_inc <- getnum impact_results "prob_mean_increase" ;;
  dm <- (if gt p_inc (Fin 0.9) then Ok ("increase", "+")
         else
           p_dec <- getnum impact_results "prob_mean_decrease" ;;
           if gt p_dec (Fin 0.9) then Ok ("decrease", "")
           else Ok ("shift", "")) ;;
  vol_shift <- getnum impact_results "vol_shift_median" ;;
  Ok {| subject_type := event_type;
        subject_description := event_desc;
        subject_date := event_date;
        direction := fst dm;
        magnitude_prefix := snd dm;
        magnitude_shift := mean_shift;
        probability := p_inc;
        vol_verb := if gt vol_shift (Fin 0) then "increased" else "decreased";
        vol_shift := vol_shift |}.

End EventAnalyzer.

(** ** Vocabulary of the specification

    Definitions that follow the wording of the specification, to be
    compared with the functions translated from the source. *)

Module Spec.

Import Numpy ChangePointModel.
Local Open Scope Q_scope.

(** "The fraction of samples satisfying [p]": how many do, over how many
    there are; undefined ([nan]) when there is none. *)
Definition fraction {A : Type} (p : A -> bool) (l : list A) : float :=
  match l with
  | [] => NaN
  | _ => Fin (inject_Z (Z.of_nat (count p l)) / inject_Z (Z.of_nat (length l)))
  end.

(** The pooled posterior draws, chain after chain; position [i] is draw
    index [i]. *)
Definition pooled (tr : InferenceData) : list Draw := concat tr.

(** "meanShift = mu_post - mu_pre", "volShift = sigma_post - sigma_pre",
    each on one draw. *)
Definition mean_shift_of (d : Draw) : Q := mu2 d - mu1 d.
Definition vol_shift_of (d : Draw) : Q := sigma2 d - sigma1 d.

(** "ln(price[i] / price[i-1]) for each consecutive pair", dated by the
    later point of the pair; the first point has no predecessor. *)
Fixpoint consecutive_log_returns (prev : TimeSeriesAnalysis.Row)
         (rest : list TimeSeriesAnalysis.Row)
  : list (Z * TimeSeriesAnalysis.logval) :=
  match rest with
  | [] => []
  | r :: t =>
      (TimeSeriesAnalysis.Date r,
       TimeSeriesAnalysis.Ln (TimeSeriesAnalysis.Price r / TimeSeriesAnalysis.Price prev))
        :: consecutive_log_returns r t
  end.

Definition log_returns_of (rows : list TimeSeriesAnalysis.Row)
  : list (Z * TimeSeriesAnalysis.logval) :=
  match rows with
  | [] => []
  | r0 :: rest => consecutive_log_returns r0 rest
  end.

(** "[changePointDate - windowDays, changePointDate + windowDays]". *)
Definition in_window (change_point_date window_days : Z) (e : EventAnalyzer.Event) : bool :=
  ((change_point_date - window_days * EventAnalyzer.day_ns <=? EventAnalyzer.date e)
   && (EventAnalyzer.date e <=? change_point_date + window_days * EventAnalyzer.day_ns))%Z.

(** Order of two scores that are both numbers. *)
Definition float_le (a b : float) : Prop :=
  match a, b with
  | Fin x, Fin y => x <= y
  | _, _ => False
  end.

(** The consecutive price pairs (earlier, later) of a table. *)
Fixpoint consecutive_prices (prev : TimeSeriesAnalysis.Row)
         (rest : list TimeSeriesAnalysis.Row) : list (Q * Q) :=
  match rest with
  | [] => []
  | r :: t =>
      (TimeSeriesAnalysis.Price prev, TimeSeriesAnalysis.Price r)
        :: consecutive_prices r t
  end.

Definition price_pairs (rows : list TimeSeriesAnalysis.Row) : list (Q * Q) :=
  match rows with
  | [] => []
  | r0 :: rest => consecutive_prices r0 rest
  end.

(** The logarithm of [later / earlier] is a number or an infinity, not
    [nan]: the ratio is non-negative, or the earlier price is zero and
    the later one positive. *)
Definition log_is_kept (pair : Q * Q) : Prop :=
  let (earlier, later) := pair in
  (earlier == 0 -> 0 < later) /\ (~ earlier == 0 -> 0 <= later / earlier).

End Spec.

(** ** Concrete inputs used by the examples *)

Module Examples.

Import Numpy ChangePointModel.
Local Open Scope string_scope.
Local Open Scope Q_scope.

Definition draw_at (t : Q) : Draw :=
  {| tau := t; mu1 := 0; mu2 := 0; sigma1 := 0.01; sigma2 := 0.01 |}.

(** A fitted model: one chain whose tau draws are [taus]. *)
Definition fitted (taus : list Q) (dates : list Z) : SingleChangePointModel :=
  {| data := map (fun _ => 0) dates;
     dates := dates;
     model := None;
     trace := Some [map draw_at taus];
     tau_posterior := None |}.

Definition five_dates : list Z := [10; 20; 30; 40; 50]%Z.

(** Forty observations, fewer than twice the margin of thirty. *)
Definition forty_points : SingleChangePointModel :=
  {| data := repeat 0 40;
     dates := map Z.of_nat (seq 0 40);
     model := None;
     trace := None;
     tau_posterior := None |}.

Definition one_draw_trace : InferenceData := [[draw_at 5]].

(** Two chains of two draws each. *)
Definition two_chain_trace : InferenceData :=
  [ [ {| tau := 100; mu1 := 0; mu2 := 0.02; sigma1 := 0.01; sigma2 := 0.02 |};
      {| tau := 101; mu1 := 0.001; mu2 := 0.005; sigma1 := 0.01; sigma2 := 0.012 |} ];
    [ {| tau := 99; mu1 := 0.01; mu2 := -0.02; sigma1 := 0.02; sigma2 := 0.01 |};
      {| tau := 100; mu1 := 0; mu2 := 0.03; sigma1 := 0.01; sigma2 := 0.03 |} ] ].

Definition two_chain_fit : SingleChangePointModel :=
  {| data := [];
     dates := [];
     model := None;
     trace := Some two_chain_trace;
     tau_posterior := None |}.

(** Prices 1, 0, 2 on three consecutive days: the ratios are 0 and 2/0. *)
Definition zero_price_rows : list TimeSeriesAnalysis.Row :=
  [ {| TimeSeriesAnalysis.Date := 0; TimeSeriesAnalysis.Price := 1 |};
    {| TimeSeriesAnalysis.Date := 1; TimeSeriesAnalysis.Price := 0 |};
    {| TimeSeriesAnalysis.Date := 2; TimeSeriesAnalysis.Price := 2 |} ].

(** Prices 40, 50, 45 on three consecutive days. *)
Definition positive_rows : list TimeSeriesAnalysis.Row :=
  [ {| TimeSeriesAnalysis.Date := 0; TimeSeriesAnalysis.Price := 40 |};
    {| TimeSeriesAnalysis.Date := 1; TimeSeriesAnalysis.Price := 50 |};
    {| TimeSeriesAnalysis.Date := 2; TimeSeriesAnalysis.Price := 45 |} ].

(** An event dated [day] whole days after the epoch. *)
Definition event_on (day : Z) : EventAnalyzer.Event :=
  {| EventAnalyzer.date := (day * EventAnalyzer.day_ns)%Z;
     EventAnalyzer.event_type := "sanctions";
     EventAnalyzer.description := "embargo";
     EventAnalyzer.region := "Gulf" |}.

Definition catalogue : EventAnalyzer.EventImpactAnalyzer :=
  {| EventAnalyzer.events := [event_on 3; event_on 10; event_on 12; event_on 30; event_on 17] |}.

(** A hand-written impact dictionary: median shift 0 next to a
    probability of increase of 0.95. *)
Definition overconfident_summary : dict :=
  [ ("mean_shift_median", Float (Fin 0));
    ("mean_shift_ci", Pair (-0.01) 0.01);
    ("prob_mean_increase", Float (Fin 0.95));
    ("prob_mean_decrease", Float (Fin 0));
    ("vol_shift_median", Float (Fin 0));
    ("vol_shift_ci", Pair (-0.01) 0.01);
    ("prob_vol_increase", Float (Fin 0)) ].

(** One chain of three draws whose mean shifts are -0.02, 0 and 0.03. *)
Definition balanced_fit : SingleChangePointModel :=
  {| data := [];
     dates := [];
     model := None;
     trace :=
       Some [ [ {| tau := 100; mu1 := 0; mu2 := -0.02; sigma1 := 0.01; sigma2 := 0.01 |};
                {| tau := 100; mu1 := 0; mu2 := 0; sigma1 := 0.01; sigma2 := 0.02 |};
                {| tau := 101; mu1 := 0; mu2 := 0.03; sigma1 := 0.01; sigma2 := 0.01 |} ] ];
     tau_posterior := None |}.

(** Two chains of four draws each. *)
Definition diagnosed_fit : SingleChangePointModel :=
  {| data := [];
     dates := [];
     model := None;
     trace := Some [ map draw_at [99.2; 100.4; 100.9; 101.3];
                     map draw_at [100.1; 99.7; 101.0; 100.6] ];
     tau_posterior := None |}.

(** A sampler that returns a trace whatever the model is. *)
Definition obliging_sampler (m : Model) (c : SampleConfig) : result InferenceData :=
  Ok one_draw_trace.

(** Eleven daily prices, all positive, and the first ten of them. *)
Definition eleven_rows : list TimeSeriesAnalysis.Row :=
  map (fun k => {| TimeSeriesAnalysis.Date := Z.of_nat k;
                   TimeSeriesAnalysis.Price := inject_Z (40 + Z.of_nat k) |})
      (seq 0 11).

(** An ADF routine that always reports statistic -3 and p-value 0.01. *)
Definition adf_constant {V : Type} (series : list V) : result (Q * Q) :=
  Ok (-3, 0.01).

(** Prices 1, -1, 2: both ratios are negative. *)
Definition negative_price_rows : list TimeSeriesAnalysis.Row :=
  [ {| TimeSeriesAnalysis.Date := 0; TimeSeriesAnalysis.Price := 1 |};
    {| TimeSeriesAnalysis.Date := 1; TimeSeriesAnalysis.Price := -1 |};
    {| TimeSeriesAnalysis.Date := 2; TimeSeriesAnalysis.Price := 2 |} ].

(** One chain of twenty draws of which all but one shift the mean down
    by 0.02. *)
Definition falling_fit : SingleChangePointModel :=
  {| data := [];
     dates := [];
     model := None;
     trace :=
       Some [ {| tau := 100; mu1 := 0; mu2 := 0; sigma1 := 0.01; sigma2 := 0.01 |}
                :: repeat {| tau := 100; mu1 := 0.01; mu2 := -0.01;
                             sigma1 := 0.01; sigma2 := 0.02 |} 19 ];
     tau_posterior := None |}.

(** An impact dictionary without the key [prob_mean_decrease]. *)
Definition summary_without_decrease (p_inc : Q) : dict :=
  [ ("mean_shift_median", Float (Fin 0.02));
    ("prob_mean_increase", Float (Fin p_inc));
    ("vol_shift_median", Float (Fin 0.001)) ].

(** An event dated [hours] hours after the epoch. *)
Definition event_at_hour (hours : Z) : EventAnalyzer.Event :=
  {| EventAnalyzer.date := (hours * 3600000000000)%Z;
     EventAnalyzer.event_type := "conflict";
     EventAnalyzer.description := "strike";
     EventAnalyzer.region := "Gulf" |}.

End Examples.

(** * Properties *)

Import Numpy.

(** Linear arithmetic with halves written as divisions by two. *)
Ltac lra_halves := unfold Qdiv; change (/ 2) with (1 # 2); lra.

(** ** Insertion sort: permutation and order *)

Section SortBy.

Context {A : Type} (before : A -> A -> bool).

Lemma insert_by_perm (x : A) (l : list A) :
  Permutation (insert_by before x l) (x :: l).
Proof.
  induction l as [|y t IH]; simpl; [apply Permutation_refl|].
  destruct (before x y); [apply Permutation_refl|].
  apply Permutation_trans with (y :: x :: t);
    [now apply perm_skip|apply perm_swap].
Qed.

Lemma sort_by_perm (l : list A) : Permutation (sort_by before l) l.
Proof.
  induction l as [|x t IH]; simpl; [apply Permutation_refl|].
  apply Permutation_trans with (x :: sort_by before t);
    [apply insert_by_perm|now apply perm_skip].
Qed.

Lemma sort_by_length (l : list A) : length (sort_by before l) = length l.
Proof. apply Permutation_length, sort_by_perm. Qed.

Hypothesis before_total : forall x y, before x y = false -> before y x = true.
Hypothesis before_trans :
  forall x y z, before x y = true -> before y z = true -> before x z = true.

Lemma insert_by_sorted (x : A) (l : list A) :
  StronglySorted (fun a b => before a b = true) l ->
  StronglySorted (fun a b => before a b = true) (insert_by before x l).
Proof.
  induction 1 as [|y t Hs IH Hy]; simpl.
  - constructor; constructor.
  - destruct (before x y) eqn:E.
    + constructor; [now constructor|].
      constructor; [exact E|].
      eapply Forall_impl; [|exact Hy]. intros z Hz. now apply before_trans with y.
    + constructor; [exact IH|].
      apply (Permutation_Forall (Permutation_sym (insert_by_perm x t))).
      constructor; [now apply before_total|exact Hy].
Qed.

Lemma sort_by_sorted (l : list A) :
  StronglySorted (fun a b => before a b = true) (sort_by before l).
Proof.
  induction l as [|x t IH]; simpl; [constructor|now apply insert_by_sorted].
Qed.

End SortBy.

Lemma sorted_nth_lt {A : Type} (R : A -> A -> Prop) (l : list A) (d : A) :
  StronglySorted R l ->
  forall i j, (i < j < length l)%nat -> R (nth i l d) (nth j l d).
Proof.
  induction 1 as [|x t Hs IH Hx]; intros i j Hij; simpl in Hij; [lia|].
  destruct j as [|j]; [lia|]. destruct i as [|i]; simpl.
  - rewrite Forall_forall in Hx. apply Hx, nth_In. lia.
  - apply IH. lia.
Qed.

Lemma count_perm {A : Type} (p : A -> bool) (l l' : list A) :
  Permutation l l' -> count p l = count p l'.
Proof.
  unfold count. induction 1; simpl; try lia.
  - destruct (p x); simpl; lia.
  - destruct (p x), (p y); simpl; lia.
Qed.

(** ** Facts about the numeric helpers *)

Lemma Qlt_bool_iff (x y : Q) : Qlt_bool x y = true <-> (x < y)%Q.
Proof.
  unfold Qlt_bool. rewrite negb_true_iff. split.
  - intros H. destruct (Qlt_le_dec x y) as [Hlt|Hle]; [exact Hlt|].
    apply Qle_bool_iff in Hle. congruence.
  - intros H. destruct (Qle_bool y x) eqn:E; [|reflexivity].
    apply Qle_bool_iff in E. exfalso. apply (Qlt_not_le _ _ H E).
Qed.

(** ** Construction of the model object *)

Section Construction.

Import ChangePointModel.

(** C10. Constructing [SingleChangePointModel] from a data array and a
    date index of different lengths raises [ValueError], and no object
    (hence no model) exists afterwards; with equal lengths the
    constructor succeeds, stores both arguments as they are, and leaves
    the model, trace and tau posterior unset. *)
Theorem init_checks_lengths (data : list Q) (dates : list Z) :
  (length data <> length dates ->
   __init__ data dates = Raise ValueError) /\
  (length data = length dates ->
   exists self, __init__ data dates = Ok self /\
                ChangePointModel.data self = data /\
                ChangePointModel.dates self = dates /\
                model self = None /\
                trace self = None /\
                tau_posterior self = None).
Proof.
  unfold __init__. split; intros H.
  - apply Nat.eqb_neq in H. now rewrite H.
  - apply Nat.eqb_eq in H. rewrite H. simpl. eexists. repeat split.
Qed.

Lemma init_checks_lengths_witness :
  __init__ [1; 2] [7%Z] = Raise ValueError /\
  exists self, __init__ [1; 2] [7%Z; 8%Z] = Ok self /\
               ChangePointModel.data self = [1; 2] /\
               ChangePointModel.dates self = [7%Z; 8%Z] /\
               model self = None /\
               trace self = None /\
               tau_posterior self = None.
Proof.
  split.
  - apply (proj1 (init_checks_lengths [1; 2] [7%Z])). simpl. lia.
  - apply (proj2 (init_checks_lengths [1; 2] [7%Z; 8%Z])). reflexivity.
Defined.

End Construction.

(** ** Sampling *)

Section SamplingFacts.

Import ChangePointModel Examples.
Local Open Scope Q_scope.




End SamplingFacts.

(** ** Positional indexing of the date axis *)

Section Indexing.

Local Open Scope Z_scope.

Context {A : Type}.

Lemma getitem_in_range (l : list A) (i : Z) :
  - Z.of_nat (length l) <= i < Z.of_nat (length l) ->
  exists x, getitem l i = Ok x /\
            nth_error l (Z.to_nat (i mod Z.of_nat (length l))) = Some x.
Proof.
  intros Hi. unfold getitem.
  set (n := Z.of_nat (length l)) in *.
  set (pos := if i <? 0 then n + i else i).
  assert (Hpos : 0 <= pos < n).
  { unfold pos. destruct (Z.ltb_spec i 0); lia. }
  assert (Hmod : i mod n = pos).
  { unfold pos. destruct (Z.ltb_spec i 0).
    - rewrite <- (Z.mod_add i 1 n) by lia. rewrite Z.mod_small by lia. lia.
    - apply Z.mod_small. lia. }
  rewrite Hmod.
  replace ((0 <=? pos) && (pos <? n))%bool with true
    by (symmetry; apply andb_true_iff; split; [apply Z.leb_le|apply Z.ltb_lt]; lia).
  destruct (nth_error l (Z.to_nat pos)) as [x|] eqn:E.
  - exists x. now split.
  - apply nth_error_None in E. unfold n in Hpos. lia.
Qed.

Lemma getitem_out_of_range (l : list A) (i : Z) :
  ~ (- Z.of_nat (length l) <= i < Z.of_nat (length l)) ->
  getitem l i = Raise IndexError.
Proof.
  intros Hi. unfold getitem.
  set (n := Z.of_nat (length l)) in *.
  set (pos := if i <? 0 then n + i else i).
  assert (Hpos : ~ (0 <= pos < n)).
  { unfold pos. destruct (Z.ltb_spec i 0); lia. }
  replace ((0 <=? pos) && (pos <? n))%bool with false; [reflexivity|].
  symmetry. apply andb_false_iff.
  destruct (Z.leb_spec 0 pos); [|now left].
  right. apply Z.ltb_ge. lia.
Qed.

Lemma getitem_nonneg (l : list A) (i : Z) (d : A) :
  0 <= i < Z.of_nat (length l) ->
  getitem l i = Ok (nth (Z.to_nat i) l d).
Proof.
  intros Hi. destruct (@getitem_in_range l i) as (x & Hx & Hnth); [lia|].
  rewrite Hx. f_equal. rewrite Z.mod_small in Hnth by lia.
  symmetry. now apply nth_error_nth.
Qed.

End Indexing.

Lemma py_int_inject_Z (z : Z) : py_int (inject_Z z) = z.
Proof.
  unfold py_int. destruct (Qle_bool 0 (inject_Z z)).
  - apply Qfloor_Z.
  - apply Qceiling_Z.
Qed.

(** ** From tau draws to calendar dates *)

Section ExtractionIndexing.

Import ChangePointModel Examples.
Local Open Scope Z_scope.

(** C1, on the code: a single tau draw of 7 on an axis of five dates
    gives the median index 7, beyond the last position 4; the call
    raises [IndexError] instead of returning the last date. *)
Lemma index_beyond_axis_raises :
  median (posterior_flatten tau [map draw_at [7%Q]]) = Fin 7 /\
  round 7 = 7 /\
  length five_dates = 5%nat /\
  extract_change_point_date (fitted [7%Q] five_dates) 0.95 = Raise IndexError.
Proof. repeat split. Qed.

(** C1, amended. [extract_change_point_date] does not clamp.  Each of
    the three indices (rounded median, truncated lower and upper
    quantile) is used for positional indexing of the date axis as it
    is: when all three lie in [-n, n-1], [n] the number of dates, the
    call succeeds and reads position [i mod n] (so a negative index
    counts from the end); when one of them lies outside, the call
    raises [IndexError]. *)
Theorem extract_indexes_without_clamping
        (self : SingleChangePointModel) (tr : InferenceData)
        (credible : Q) (med q_lo q_hi : Q) :
  trace self = Some tr ->
  median (posterior_flatten tau tr) = Fin med ->
  quantile (posterior_flatten tau tr) ((1 - credible) / 2) = Ok q_lo ->
  quantile (posterior_flatten tau tr) (1 - (1 - credible) / 2) = Ok q_hi ->
  let n := Z.of_nat (length (dates self)) in
  let valid i := - n <= i < n in
  let at_position i d := nth_error (dates self) (Z.to_nat (i mod n)) = Some d in
  (valid (round med) /\ valid (py_int q_lo) /\ valid (py_int q_hi) ->
   exists self' est,
     extract_change_point_date self credible = Ok (self', est) /\
     mode_index est = round med /\
     at_position (round med) (mode_date est) /\
     at_position (py_int q_lo) (fst (credible_interval est)) /\
     at_position (py_int q_hi) (snd (credible_interval est))) /\
  (~ (valid (round med) /\ valid (py_int q_lo) /\ valid (py_int q_hi)) ->
   extract_change_point_date self credible = Raise IndexError).
Proof.
  intros Htr Hmed Hlo Hhi n valid at_position.
  unfold extract_change_point_date. rewrite Htr, Hmed, Hlo, Hhi.
  rewrite py_int_inject_Z. cbn [bind]. split.
  - intros (Hm & Hl & Hh).
    destruct (getitem_in_range (dates self) Hm) as (dm & -> & Hdm).
    destruct (getitem_in_range (dates self) Hl) as (dl & -> & Hdl).
    destruct (getitem_in_range (dates self) Hh) as (dh & -> & Hdh).
    cbn [bind]. eexists _, _. split; [reflexivity|].
    cbn. repeat split; assumption.
  - intros Hnot.
    destruct (Z_le_dec (- n) (round med)) as [H1|H1];
      [destruct (Z_lt_dec (round med) n) as [H2|H2]|];
      try (rewrite (@getitem_out_of_range _ (dates self) (round med)) by (fold n; lia);
           reflexivity).
    destruct (@getitem_in_range _ (dates self) (round med)) as (dm & -> & _);
      [fold n; lia|]. cbn [bind].
    destruct (Z_le_dec (- n) (py_int q_lo)) as [H3|H3];
      [destruct (Z_lt_dec (py_int q_lo) n) as [H4|H4]|];
      try (rewrite (@getitem_out_of_range _ (dates self) (py_int q_lo)) by (fold n; lia);
           reflexivity).
    destruct (@getitem_in_range _ (dates self) (py_int q_lo)) as (dl & -> & _);
      [fold n; lia|]. cbn [bind].
    rewrite (@getitem_out_of_range _ (dates self) (py_int q_hi)); [reflexivity|].
    fold n. intros H5. apply Hnot. unfold valid. lia.
Qed.

Lemma extract_indexes_without_clamping_witness :
  extract_change_point_date (fitted [7%Q] five_dates) 0.95 = Raise IndexError.
Proof.
  apply (proj2 (@extract_indexes_without_clamping
                  (fitted [7%Q] five_dates) [map draw_at [7%Q]] 0.95
                  7 (1400 # 200) (1400 # 200)
                  eq_refl eq_refl eq_refl eq_refl)).
  intros ((_ & H) & _). vm_compute in H. discriminate H.
Defined.

End ExtractionIndexing.

(** ** Impact quantification *)

Section ImpactFacts.

Import ChangePointModel Spec.
Local Open Scope Q_scope.
Local Open Scope string_scope.

Lemma posterior_flatten_pooled (v : Draw -> Q) (tr : InferenceData) :
  posterior_flatten v tr = map v (pooled tr).
Proof. unfold posterior_flatten, pooled. symmetry. apply concat_map. Qed.

Lemma map2_map {A B C D : Type} (f : B -> C -> D) (g : A -> B) (h : A -> C) (l : list A) :
  map2 f (map g l) (map h l) = map (fun x => f (g x) (h x)) l.
Proof. induction l as [|a l IH]; simpl; [reflexivity|now rewrite IH]. Qed.

Lemma count_map {A B : Type} (p : B -> bool) (g : A -> B) (l : list A) :
  count p (map g l) = count (fun x => p (g x)) l.
Proof.
  unfold count. induction l as [|a l IH]; simpl; [reflexivity|].
  destruct (p (g a)); simpl; now rewrite IH.
Qed.

Lemma mean_bool_map {A : Type} (p : A -> bool) (l : list A) :
  mean_bool (map p l) = fraction p l.
Proof.
  destruct l as [|a l]; [reflexivity|].
  unfold mean_bool, fraction. cbn [map].
  change (p a :: map p l) with (map p (a :: l)).
  now rewrite count_map, length_map.
Qed.

Lemma fraction_map {A B : Type} (p : B -> bool) (g : A -> B) (l : list A) :
  fraction p (map g l) = fraction (fun x => p (g x)) l.
Proof.
  destruct l as [|a l]; [reflexivity|].
  unfold fraction. cbn [map].
  change (g a :: map g l) with (map g (a :: l)).
  now rewrite count_map, length_map.
Qed.

Lemma quantile_ok (a : list Q) (q : Q) :
  a <> [] -> 0 <= q <= 1 ->
  quantile a q = Ok (linear_quantile (sort a) q).
Proof.
  intros Ha [H0 H1]. unfold quantile.
  apply Qle_bool_iff in H0. apply Qle_bool_iff in H1. rewrite H0, H1. simpl.
  destruct a; [congruence|reflexivity].
Qed.

Lemma percentile_band_ok (a : list Q) :
  a <> [] ->
  percentile a 2.5 97.5
  = Ok (linear_quantile (sort a) (2.5 / 100), linear_quantile (sort a) (97.5 / 100)).
Proof.
  intros Ha. unfold percentile.
  rewrite !quantile_ok; try assumption; [reflexivity| |];
    split; apply Qle_bool_iff; reflexivity.
Qed.

(** What [quantify_impact] returns on a posterior with at least one
    draw, entry by entry. *)
Lemma quantify_impact_on_draws (self : SingleChangePointModel) (tr : InferenceData) :
  trace self = Some tr ->
  pooled tr <> [] ->
  let mean_shift := map mean_shift_of (pooled tr) in
  let vol_shift := map vol_shift_of (pooled tr) in
  quantify_impact self
  = Ok [ ("mean_shift_median", Float (median mean_shift));
         ("mean_shift_ci", Pair (linear_quantile (sort mean_shift) (2.5 / 100))
                                (linear_quantile (sort mean_shift) (97.5 / 100)));
         ("prob_mean_increase",
          Float (fraction (fun d => Qlt_bool 0.01 (mean_shift_of d)) (pooled tr)));
         ("prob_mean_decrease",
          Float (fraction (fun d => Qlt_bool (mean_shift_of d) (-0.01)) (pooled tr)));
         ("vol_shift_median", Float (median vol_shift));
         ("vol_shift_ci", Pair (linear_quantile (sort vol_shift) (2.5 / 100))
                               (linear_quantile (sort vol_shift) (97.5 / 100)));
         ("prob_vol_increase",
          Float (fraction (fun d => Qlt_bool 0.005 (vol_shift_of d)) (pooled tr))) ].
Proof.
  intros Htr Hne mean_shift vol_shift.
  unfold quantify_impact. rewrite Htr, !posterior_flatten_pooled, !map2_map.
  fold mean_shift_of vol_shift_of.
  fold mean_shift vol_shift.
  assert (Hm : mean_shift <> []).
  { unfold mean_shift. destruct (pooled tr); [congruence|discriminate]. }
  assert (Hv : vol_shift <> []).
  { unfold vol_shift. destruct (pooled tr); [congruence|discriminate]. }
  rewrite (percentile_band_ok Hm), (percentile_band_ok Hv). cbn [bind fst snd].
  rewrite !mean_bool_map. unfold mean_shift, vol_shift.
  now rewrite !fraction_map.
Qed.

(** C7. On every posterior with at least one draw, [quantify_impact]
    reports as [prob_mean_increase] the fraction of pooled draws whose
    own mean shift [mu2 - mu1] (both taken at that draw's index) is
    strictly above 0.01, and as [prob_mean_decrease] the fraction of
    draws whose own mean shift is strictly below -0.01; the mean-shift
    sample at index [i] pairs [mu2] and [mu1] of draw [i]. *)
Theorem mean_shift_probabilities (self : SingleChangePointModel) (tr : InferenceData) :
  trace self = Some tr ->
  pooled tr <> [] ->
  exists d,
    quantify_impact self = Ok d /\
    lookup "prob_mean_increase" d
    = Some (Float (fraction (fun dr => Qlt_bool 0.01 (mu2 dr - mu1 dr)) (pooled tr))) /\
    lookup "prob_mean_decrease" d
    = Some (Float (fraction (fun dr => Qlt_bool (mu2 dr - mu1 dr) (-0.01)) (pooled tr))) /\
    map2 Qminus (posterior_flatten mu2 tr) (posterior_flatten mu1 tr)
    = map (fun dr => mu2 dr - mu1 dr) (pooled tr).
Proof.
  intros Htr Hne. eexists. split; [apply (quantify_impact_on_draws _ Htr Hne)|].
  split; [reflexivity|]. split; [reflexivity|].
  now rewrite !posterior_flatten_pooled, map2_map.
Qed.

Lemma mean_shift_probabilities_witness :
  exists d,
    quantify_impact Examples.two_chain_fit = Ok d /\
    lookup "prob_mean_increase" d = Some (Float (Fin (2 / 4))) /\
    lookup "prob_mean_decrease" d = Some (Float (Fin (1 / 4))).
Proof.
  destruct (@mean_shift_probabilities Examples.two_chain_fit Examples.two_chain_trace
                                      eq_refl ltac:(discriminate))
    as (d & Hd & Hinc & Hdec & _).
  exists d. split; [exact Hd|]. split; [exact Hinc|exact Hdec].
Defined.

(** C9. On every posterior with at least one draw, [prob_vol_increase]
    is the fraction of pooled draws whose own volatility shift
    [sigma2 - sigma1] is strictly above 0.005, a threshold that is not
    the 0.01 of the mean-shift probabilities; the dictionary has the
    seven keys listed and none named [prob_vol_decrease]. *)
Theorem vol_shift_probability (self : SingleChangePointModel) (tr : InferenceData) :
  trace self = Some tr ->
  pooled tr <> [] ->
  exists d,
    quantify_impact self = Ok d /\
    lookup "prob_vol_increase" d
    = Some (Float (fraction (fun dr => Qlt_bool 0.005 (sigma2 dr - sigma1 dr)) (pooled tr))) /\
    ~ 0.005 == 0.01 /\
    keys d = ["mean_shift_median"; "mean_shift_ci"; "prob_mean_increase";
              "prob_mean_decrease"; "vol_shift_median"; "vol_shift_ci";
              "prob_vol_increase"] /\
    lookup "prob_vol_decrease" d = None.
Proof.
  intros Htr Hne. eexists. split; [apply (quantify_impact_on_draws _ Htr Hne)|].
  split; [reflexivity|]. split; [|split; reflexivity].
  intros H. vm_compute in H. discriminate H.
Qed.

Lemma vol_shift_probability_witness :
  exists d,
    quantify_impact Examples.two_chain_fit = Ok d /\
    lookup "prob_vol_increase" d = Some (Float (Fin (2 / 4))) /\
    lookup "prob_vol_decrease" d = None.
Proof.
  destruct (@vol_shift_probability Examples.two_chain_fit Examples.two_chain_trace
                                   eq_refl ltac:(discriminate))
    as (d & Hd & Hinc & _ & _ & Hnone).
  exists d. split; [exact Hd|]. split; [exact Hinc|exact Hnone].
Defined.

End ImpactFacts.

(** ** Log returns *)

Section LogReturnFacts.

Import TimeSeriesAnalysis Spec Examples.
Local Open Scope Q_scope.

Lemma positive_ratio_log (a b : Q) :
  0 < a -> 0 < b -> np_log (fdiv (Fin a) (Fin b)) = Ln (a / b).
Proof.
  intros Ha Hb. unfold fdiv.
  assert (Hb0 : Qeq_bool b 0 = false).
  { destruct (Qeq_bool b 0) eqn:E; [|reflexivity].
    apply Qeq_bool_eq in E. rewrite E in Hb. exfalso. apply (Qlt_irrefl _ Hb). }
  rewrite Hb0. unfold np_log.
  assert (Hpos : 0 < a / b).
  { unfold Qdiv. apply Qmult_lt_0_compat; [exact Ha|now apply Qinv_lt_0_compat]. }
  apply Qlt_bool_iff in Hpos. now rewrite Hpos.
Qed.

Lemma ratios_of_positive_prices (prev : Row) (rest : list Row) :
  0 < Price prev ->
  (forall r, In r rest -> 0 < Price r) ->
  dropna (map np_log
              (map2 fdiv (map (fun r => Fin (Price r)) rest)
                    (removelast (Fin (Price prev) :: map (fun r => Fin (Price r)) rest))))
  = map snd (consecutive_log_returns prev rest).
Proof.
  revert prev. induction rest as [|r t IH]; intros prev Hprev Hall; [reflexivity|].
  cbn [map consecutive_log_returns snd].
  change (removelast (Fin (Price prev) :: Fin (Price r) :: map (fun r0 => Fin (Price r0)) t))
    with (Fin (Price prev)
            :: removelast (Fin (Price r) :: map (fun r0 => Fin (Price r0)) t)).
  cbn [map2 map].
  rewrite positive_ratio_log by (try assumption; apply Hall; now left).
  unfold dropna. cbn [filter notna]. f_equal.
  apply IH; [apply Hall; now left|]. intros r' Hr'. apply Hall. now right.
Qed.

Lemma consecutive_dates (prev : Row) (rest : list Row) :
  map fst (consecutive_log_returns prev rest) = map Date rest.
Proof.
  revert prev. induction rest as [|r t IH]; intros prev; simpl; [reflexivity|].
  now rewrite IH.
Qed.

Lemma combine_fst_snd {A B : Type} (l : list (A * B)) :
  combine (map fst l) (map snd l) = l.
Proof.
  induction l as [|[a b] l IH]; simpl; [reflexivity|now rewrite IH].
Qed.

(** C4, on the code: with prices 1, 0, 2 the consecutive ratios are 0
    and 2/0.  No exception is raised: the call returns, and the
    returned series carries the two ill-defined values, [-inf] and
    [+inf]. *)
Lemma zero_ratio_is_propagated :
  exists self',
    compute_log_returns {| df := zero_price_rows; log_returns := None |}
    = Ok (self', [(1%Z, LogNInf); (2%Z, LogPInf)]).
Proof. eexists. reflexivity. Qed.

(** C4, amended. For every price table whose prices are all positive,
    [compute_log_returns] returns, for each consecutive pair, the
    logarithm of the ratio of the later price to the earlier one, dated
    by the later point; the first point is dropped, so the result has
    one entry fewer than a non-empty table; the result is also stored
    in the analyzer.  The code validates nothing: no exception is
    raised for a zero ratio, whose [-inf] stays in the output. *)
Theorem log_returns_of_positive_prices (self : TimeSeriesAnalyzer) :
  (forall r, In r (df self) -> 0 < Price r) ->
  exists self',
    compute_log_returns self = Ok (self', log_returns_of (df self)) /\
    df self' = df self /\
    log_returns self' = Some (log_returns_of (df self)) /\
    length (log_returns_of (df self)) = (length (df self) - 1)%nat.
Proof.
  intros Hall. unfold compute_log_returns.
  destruct (df self) as [|r0 rest] eqn:Hdf.
  - simpl. eexists. repeat split.
  - cbn [map shift1 tl log_returns_of].
    assert (Hd : dropna
                   (map np_log
                        (map2 fdiv
                              (Fin (Price r0) :: map (fun r => Fin (Price r)) rest)
                              (NaN :: removelast
                                     (Fin (Price r0)
                                        :: map (fun r => Fin (Price r)) rest))))
                 = map snd (consecutive_log_returns r0 rest)).
    { rewrite <- ratios_of_positive_prices;
        [reflexivity|apply Hall; now left|intros r Hr; apply Hall; now right]. }
    rewrite Hd.
    rewrite <- (consecutive_dates r0 rest), !length_map, Nat.eqb_refl.
    cbn [negb]. rewrite combine_fst_snd.
    eexists. repeat split.
    rewrite <- (length_map fst), consecutive_dates, length_map. simpl. lia.
Qed.

Lemma log_returns_of_positive_prices_witness :
  exists self',
    compute_log_returns {| df := positive_rows; log_returns := None |}
    = Ok (self', [(1%Z, Ln (50 / 40)); (2%Z, Ln (45 / 50))]) /\
    df self' = positive_rows /\
    log_returns self' = Some [(1%Z, Ln (50 / 40)); (2%Z, Ln (45 / 50))] /\
    length [(1%Z, Ln (50 / 40)); (2%Z, Ln (45 / 50))] = 2%nat.
Proof.
  apply (log_returns_of_positive_prices {| df := positive_rows; log_returns := None |}).
  intros r Hr. simpl in Hr.
  destruct Hr as [<-|[<-|[<-|[]]]]; reflexivity.
Defined.

End LogReturnFacts.

(** ** Event association *)

Section AssociationFacts.

Import EventAnalyzer Spec Examples.
Local Open Scope Z_scope.

Lemma Qlt_bool_false_iff (x y : Q) : Qlt_bool x y = false <-> (y <= x)%Q.
Proof.
  unfold Qlt_bool. rewrite negb_false_iff. apply Qle_bool_iff.
Qed.

Lemma score_before_total (a b : EventMatch) :
  score_before a b = false -> score_before b a = true.
Proof.
  unfold score_before, lt.
  destruct (proximity_score a) as [x| | |], (proximity_score b) as [y| | |];
    simpl; try reflexivity; try discriminate.
  rewrite negb_false_iff, negb_true_iff, Qlt_bool_iff, Qlt_bool_false_iff.
  apply Qlt_le_weak.
Qed.

Lemma score_before_trans (a b c : EventMatch) :
  score_before a b = true -> score_before b c = true -> score_before a c = true.
Proof.
  unfold score_before, lt.
  destruct (proximity_score a) as [x| | |], (proximity_score b) as [y| | |],
           (proximity_score c) as [z| | |];
    simpl; try reflexivity; try discriminate.
  rewrite !negb_true_iff, !Qlt_bool_false_iff. intros H1 H2.
  now apply Qle_trans with y.
Qed.

Lemma days_within_window (cp W t : Z) :
  cp - W * day_ns <= t <= cp + W * day_ns ->
  Z.abs (dt_days (t - cp)) <= W.
Proof.
  intros H. unfold dt_days.
  assert (HD : 0 < day_ns) by reflexivity.
  apply Z.abs_le. split.
  - apply Z.div_le_lower_bound; [exact HD|]. lia.
  - apply Z.div_le_upper_bound; [exact HD|]. lia.
Qed.

Lemma Qdiv_le_mono (a b w : Q) : (0 < w -> a <= b -> a / w <= b / w)%Q.
Proof.
  intros Hw Hab. unfold Qdiv. apply Qmult_le_compat_r; [exact Hab|].
  apply Qlt_le_weak. now apply Qinv_lt_0_compat.
Qed.

(** The score column on a positive window. *)
Lemma score_on_positive_window (d W : Z) :
  0 < W ->
  fsub (Fin 1) (fdiv (Fin (inject_Z d)) (Fin (inject_Z W)))
  = Fin (1 - inject_Z d / inject_Z W).
Proof.
  intros HW. unfold fdiv.
  destruct (Qeq_bool (inject_Z W) 0) eqn:E; [|reflexivity].
  apply Qeq_bool_eq in E. unfold Qeq in E. simpl in E. lia.
Qed.

Lemma strongly_sorted_impl {A : Type} (R R' : A -> A -> Prop) (l : list A) :
  (forall a b, In a l -> In b l -> R a b -> R' a b) ->
  StronglySorted R l -> StronglySorted R' l.
Proof.
  intros Himpl Hs. induction Hs as [|x t Hs IH Hx]; constructor.
  - apply IH. intros a b Ha Hb. apply Himpl; now right.
  - rewrite Forall_forall in *. intros y Hy.
    apply Himpl; [now left|now right|now apply Hx].
Qed.

(** The result is the scored in-window events, reordered. *)
Lemma associate_is_scored_window (self : EventImpactAnalyzer) (cp W : Z) :
  Permutation
    (associate_change_points self cp W)
    (map (fun e =>
            {| event := e;
               days_from_cp := Z.abs (dt_days (date e - cp));
               proximity_score :=
                 fsub (Fin 1)
                      (fdiv (Fin (inject_Z (Z.abs (dt_days (date e - cp)))))
                            (Fin (inject_Z W))) |})
         (filter (in_window cp W) (events self))).
Proof.
  unfold associate_change_points, timedelta.
  change (filter (fun e => (cp - W * day_ns <=? date e) && (date e <=? cp + W * day_ns))
                 (events self))
    with (filter (in_window cp W) (events self)).
  destruct (filter (in_window cp W) (events self)) as [|e t]; [constructor|].
  apply sort_by_perm.
Qed.

(** C6, on the code: with a window of zero days an event on the
    change-point date itself is returned at distance 0, and its score
    is [1 - 0/0], which is [nan]: neither 1 nor inside [0,1], although
    the source comments the score as "1.0 = exact match, 0.0 = edge of
    window".  The division by [window_days] has no guard. *)
Lemma zero_window_score_is_nan :
  associate_change_points {| events := [event_on 10] |} (10 * day_ns) 0
  = [ {| event := event_on 10; days_from_cp := 0; proximity_score := NaN |} ].
Proof. reflexivity. Qed.

(** X17. What C6 states holds on every window of at least one day.  For
    every change-point date, event list and window of at least one
    day: the result holds exactly the events dated within
    [windowDays] days of the change point, once each; every returned
    match has [days_from_cp], the absolute number of whole days between
    event and change point, between 0 and [windowDays], and the score
    [1 - days_from_cp / windowDays], which lies in [0,1], is 1 at
    distance zero and 0 at the window edge; a match that is at least as
    far away never scores higher; and the result is in descending
    order of score. *)
Theorem associate_scores_and_sorts (self : EventImpactAnalyzer) (cp W : Z) :
  0 < W ->
  let result := associate_change_points self cp W in
  Permutation (map event result) (filter (in_window cp W) (events self)) /\
  (forall m, In m result ->
     days_from_cp m = Z.abs ((date (event m) - cp) / day_ns) /\
     0 <= days_from_cp m <= W /\
     exists s,
       proximity_score m = Fin s /\
       (s == 1 - inject_Z (days_from_cp m) / inject_Z W)%Q /\
       (0 <= s <= 1)%Q /\
       (days_from_cp m = 0 -> (s == 1)%Q) /\
       (days_from_cp m = W -> (s == 0)%Q)) /\
  (forall m1 m2, In m1 result -> In m2 result ->
     days_from_cp m1 <= days_from_cp m2 ->
     float_le (proximity_score m2) (proximity_score m1)) /\
  StronglySorted (fun a b => float_le (proximity_score b) (proximity_score a)) result.
Proof.
  intros HW result.
  pose proof (associate_is_scored_window self cp W) as Hperm. fold result in Hperm.
  set (scored := fun e : Event => _) in Hperm.
  assert (HWq : (inject_Z 0 < inject_Z W)%Q) by (rewrite <- Zlt_Qlt; exact HW).
  change (inject_Z 0) with 0%Q in HWq.
  assert (Hshape : forall m, In m result ->
            exists e, In e (events self) /\ in_window cp W e = true /\ m = scored e).
  { intros m Hm. apply (Permutation_in _ Hperm) in Hm.
    apply in_map_iff in Hm. destruct Hm as (e & <- & He).
    apply filter_In in He. destruct He as (He & Hw). now exists e. }
  assert (Hdays : forall m, In m result -> 0 <= days_from_cp m <= W).
  { intros m Hm. destruct (Hshape m Hm) as (e & _ & Hw & ->). cbn.
    split; [apply Z.abs_nonneg|]. apply days_within_window.
    unfold in_window in Hw. apply andb_true_iff in Hw. destruct Hw as (H1 & H2).
    apply Z.leb_le in H1, H2. lia. }
  assert (Hscore : forall m, In m result ->
            proximity_score m = Fin (1 - inject_Z (days_from_cp m) / inject_Z W)).
  { intros m Hm. destruct (Hshape m Hm) as (e & _ & _ & ->). cbn.
    now apply score_on_positive_window. }
  assert (Hmono : forall m1 m2, In m1 result -> In m2 result ->
            days_from_cp m1 <= days_from_cp m2 ->
            float_le (proximity_score m2) (proximity_score m1)).
  { intros m1 m2 H1 H2 Hle. rewrite (Hscore m1 H1), (Hscore m2 H2). cbn.
    assert (Hq : (inject_Z (days_from_cp m1) / inject_Z W
                  <= inject_Z (days_from_cp m2) / inject_Z W)%Q).
    { apply Qdiv_le_mono; [exact HWq|]. rewrite <- Zle_Qle. exact Hle. }
    set (x1 := (inject_Z (days_from_cp m1) / inject_Z W)%Q) in *.
    set (x2 := (inject_Z (days_from_cp m2) / inject_Z W)%Q) in *.
    lra. }
  split; [|split; [|split]].
  - apply Permutation_trans with (map event (map scored (filter (in_window cp W) (events self)))).
    + now apply Permutation_map.
    + rewrite map_map. cbn. rewrite map_id. apply Permutation_refl.
  - intros m Hm. split; [|split; [now apply Hdays|]].
    + destruct (Hshape m Hm) as (e & _ & _ & ->). reflexivity.
    + eexists. split; [now apply Hscore|]. split; [reflexivity|].
      destruct (Hdays m Hm) as (H0 & H1).
      assert (Hlo : (inject_Z 0 / inject_Z W <= inject_Z (days_from_cp m) / inject_Z W)%Q).
      { apply Qdiv_le_mono; [exact HWq|]. rewrite <- Zle_Qle. exact H0. }
      assert (Hhi : (inject_Z (days_from_cp m) / inject_Z W <= inject_Z W / inject_Z W)%Q).
      { apply Qdiv_le_mono; [exact HWq|]. rewrite <- Zle_Qle. exact H1. }
      assert (Hone : (inject_Z W / inject_Z W == 1)%Q).
      { apply Qmult_inv_r. intros E. rewrite E in HWq. apply (Qlt_irrefl _ HWq). }
      assert (Hzero : (inject_Z 0 / inject_Z W == 0)%Q).
      { unfold Qdiv. apply Qmult_0_l. }
      rewrite Hone in Hhi. rewrite Hzero in Hlo.
      split; [|split].
      * set (x := (inject_Z (days_from_cp m) / inject_Z W)%Q) in *. split; lra.
      * intros ->. rewrite Hzero. lra.
      * intros ->. rewrite Hone. lra.
  - exact Hmono.
  - apply strongly_sorted_impl with (R := fun a b => score_before a b = true).
    + intros a b Ha Hb. unfold score_before, lt.
      rewrite (Hscore a Ha), (Hscore b Hb). cbn.
      rewrite negb_true_iff. now apply Qlt_bool_false_iff.
    + unfold result, associate_change_points.
      match goal with |- context [match ?f with [] => [] | _ :: _ => _ end] =>
        destruct f end; [constructor|].
      apply sort_by_sorted; [apply score_before_total|apply score_before_trans].
Qed.

Lemma associate_scores_and_sorts_witness :
  map (fun m => (days_from_cp m, proximity_score m))
      (associate_change_points catalogue (10 * day_ns) 7)
  = [ (0, Fin (1 - 0 / 7)); (2, Fin (1 - 2 / 7));
      (7, Fin (1 - 7 / 7)); (7, Fin (1 - 7 / 7)) ] /\
  StronglySorted (fun a b => float_le (proximity_score b) (proximity_score a))
                 (associate_change_points catalogue (10 * day_ns) 7).
Proof.
  split; [reflexivity|].
  apply (@associate_scores_and_sorts catalogue (10 * day_ns) 7). reflexivity.
Defined.

End AssociationFacts.

(** ** Order statistics: sorted arrays, quantiles and the median *)

Section OrderStatistics.

Local Open Scope Q_scope.

Lemma sort_sorted (a : list Q) : StronglySorted Qle (sort a).
Proof.
  unfold sort.
  apply strongly_sorted_impl with (R := fun x y => Qle_bool x y = true).
  - intros x y _ _. apply Qle_bool_iff.
  - apply sort_by_sorted.
    + intros x y H. apply Qle_bool_iff.
      destruct (Qlt_le_dec y x) as [Hlt|Hle]; [now apply Qlt_le_weak|].
      apply Qle_bool_iff in Hle. congruence.
    + intros x y z Hxy Hyz. apply Qle_bool_iff.
      apply Qle_bool_iff in Hxy. apply Qle_bool_iff in Hyz.
      now apply Qle_trans with y.
Qed.

Lemma sort_perm (a : list Q) : Permutation (sort a) a.
Proof. apply sort_by_perm. Qed.

Lemma sort_length (a : list Q) : length (sort a) = length a.
Proof. apply sort_by_length. Qed.

Lemma sorted_nth_le (s : list Q) (i j : nat) :
  StronglySorted Qle s -> (i <= j < length s)%nat -> nth i s 0 <= nth j s 0.
Proof.
  intros Hs Hij. destruct (Nat.eq_dec i j) as [->|Hne]; [apply Qle_refl|].
  apply sorted_nth_lt; [exact Hs|lia].
Qed.

Lemma nth_within (s : list Q) (lo hi : Q) (i : nat) :
  (forall x, In x s -> lo <= x <= hi) -> (i < length s)%nat ->
  lo <= nth i s 0 <= hi.
Proof. intros Hall Hi. apply Hall, nth_In, Hi. Qed.

Lemma Qfloor_unique (x : Q) (z : Z) :
  inject_Z z <= x -> x < inject_Z (z + 1) -> Qfloor x = z.
Proof.
  intros Hlo Hhi.
  pose proof (Qfloor_le x) as Hf. pose proof (Qlt_floor x) as Hc.
  assert (H1 : (z < Qfloor x + 1)%Z).
  { rewrite Zlt_Qlt. now apply Qle_lt_trans with x. }
  assert (H2 : (Qfloor x < z + 1)%Z).
  { rewrite Zlt_Qlt. now apply Qle_lt_trans with x. }
  lia.
Qed.

Lemma lerp_between (a b t : Q) :
  a <= b -> 0 <= t <= 1 -> a <= lerp a b t <= b.
Proof.
  intros Hab [H0 H1]. unfold lerp.
  assert (Hd : 0 <= b - a) by lra.
  assert (Hp : 0 <= (b - a) * t) by (now apply Qmult_le_0_compat).
  assert (Hq : (b - a) * t <= (b - a) * 1).
  { rewrite !(Qmult_comm (b - a)). now apply Qmult_le_compat_r. }
  split; lra.
Qed.

Lemma lerp_mono (a b t u : Q) :
  a <= b -> t <= u -> lerp a b t <= lerp a b u.
Proof.
  intros Hab Htu. unfold lerp.
  assert (Hd : 0 <= b - a) by lra.
  assert (Hq : (b - a) * t <= (b - a) * u).
  { rewrite !(Qmult_comm (b - a)). now apply Qmult_le_compat_r. }
  lra.
Qed.

(** The two neighbours of a virtual index inside a sorted array. *)
Lemma quantile_neighbours (s : list Q) (v : Q) :
  StronglySorted Qle s ->
  0 <= v <= inject_Z (Z.of_nat (length s) - 1) ->
  let i := Z.to_nat (Qfloor v) in
  let j := Nat.min (S i) (length s - 1) in
  (0 <= Qfloor v <= Z.of_nat (length s) - 1)%Z /\
  (i <= j < length s)%nat /\
  nth i s 0 <= nth j s 0 /\
  0 <= v - inject_Z (Qfloor v) <= 1.
Proof.
  intros Hs [Hv0 HvN] i j.
  assert (Hf0 : (0 <= Qfloor v)%Z).
  { change 0%Z with (Qfloor 0). now apply Qfloor_resp_le. }
  assert (HfN : (Qfloor v <= Z.of_nat (length s) - 1)%Z).
  { rewrite <- (Qfloor_Z (Z.of_nat (length s) - 1)). now apply Qfloor_resp_le. }
  assert (Hij : (i <= j < length s)%nat) by (unfold i, j; lia).
  split; [lia|]. split; [exact Hij|]. split; [apply sorted_nth_le; [exact Hs|lia]|].
  pose proof (Qfloor_le v) as Hle. pose proof (Qlt_floor v) as Hlt.
  rewrite inject_Z_plus in Hlt. change (inject_Z 1) with 1 in Hlt.
  split; lra.
Qed.

Lemma virtual_index_range (n : nat) (q : Q) :
  (0 < n)%nat -> 0 <= q <= 1 ->
  0 <= inject_Z (Z.of_nat n - 1) * q <= inject_Z (Z.of_nat n - 1).
Proof.
  intros Hn [H0 H1].
  assert (HN : 0 <= inject_Z (Z.of_nat n - 1)).
  { change 0 with (inject_Z 0). rewrite <- Zle_Qle. lia. }
  split; [now apply Qmult_le_0_compat|].
  rewrite <- (Qmult_1_r (inject_Z (Z.of_nat n - 1))) at 2.
  rewrite !(Qmult_comm (inject_Z (Z.of_nat n - 1))).
  now apply Qmult_le_compat_r.
Qed.

(** A quantile of a sorted array lies between its smallest and largest
    entries. *)
Lemma linear_quantile_within (s : list Q) (q lo hi : Q) :
  StronglySorted Qle s -> s <> [] -> 0 <= q <= 1 ->
  (forall x, In x s -> lo <= x <= hi) ->
  lo <= linear_quantile s q <= hi.
Proof.
  intros Hs Hne Hq Hall.
  assert (Hn : (0 < length s)%nat) by (destruct s; [congruence|simpl; lia]).
  destruct (quantile_neighbours Hs (virtual_index_range Hn Hq))
    as (_ & Hij & Hab & Hg).
  unfold linear_quantile.
  set (v := inject_Z (Z.of_nat (length s) - 1) * q) in *.
  set (i := Z.to_nat (Qfloor v)) in *.
  set (j := Nat.min (S i) (length s - 1)) in *.
  pose proof (lerp_between Hab Hg) as [Hl Hu].
  assert (Hi : lo <= nth i s 0 <= hi) by (apply nth_within; [exact Hall|lia]).
  assert (Hj : lo <= nth j s 0 <= hi) by (apply nth_within; [exact Hall|lia]).
  split; [apply Qle_trans with (nth i s 0)|apply Qle_trans with (nth j s 0)]; tauto.
Qed.

(** On a sorted array the quantile does not decrease with the level. *)
Lemma linear_quantile_mono (s : list Q) (p q : Q) :
  StronglySorted Qle s -> s <> [] -> 0 <= p -> p <= q -> q <= 1 ->
  linear_quantile s p <= linear_quantile s q.
Proof.
  intros Hs Hne Hp Hpq Hq.
  assert (Hn : (0 < length s)%nat) by (destruct s; [congruence|simpl; lia]).
  assert (Hp' : 0 <= p <= 1) by (split; [exact Hp|now apply Qle_trans with q]).
  assert (Hq' : 0 <= q <= 1) by (split; [now apply Qle_trans with p|exact Hq]).
  destruct (quantile_neighbours Hs (virtual_index_range Hn Hp'))
    as (Hfv & Hij & Hab & Hg).
  destruct (quantile_neighbours Hs (virtual_index_range Hn Hq'))
    as (Hfw & Hkl & Hcd & Hh).
  unfold linear_quantile.
  assert (HN : 0 <= inject_Z (Z.of_nat (length s) - 1)).
  { change 0 with (inject_Z 0). rewrite <- Zle_Qle. lia. }
  assert (Hvw : inject_Z (Z.of_nat (length s) - 1) * p
                <= inject_Z (Z.of_nat (length s) - 1) * q).
  { rewrite !(Qmult_comm (inject_Z (Z.of_nat (length s) - 1))).
    now apply Qmult_le_compat_r. }
  set (v := inject_Z (Z.of_nat (length s) - 1) * p) in *.
  set (w := inject_Z (Z.of_nat (length s) - 1) * q) in *.
  pose proof (Qfloor_resp_le _ _ Hvw) as Hfl.
  destruct (Z.eq_dec (Qfloor v) (Qfloor w)) as [E|E].
  - rewrite <- E. apply lerp_mono; [exact Hab|lra].
  - apply Qle_trans with (nth (Nat.min (S (Z.to_nat (Qfloor v))) (length s - 1)) s 0);
      [apply (lerp_between Hab Hg)|].
    apply Qle_trans with (nth (Z.to_nat (Qfloor w)) s 0);
      [|apply (lerp_between Hcd Hh)].
    apply sorted_nth_le; [exact Hs|]. clearbody v w.
    clear - Hfv Hfw Hfl E Hn. lia.
Qed.

Lemma half_of_odd (k : nat) : ((2 * k + 1) / 2 = k)%nat.
Proof. symmetry. apply Nat.div_unique with 1%nat; lia. Qed.

Lemma half_of_even (k : nat) : ((2 * k) / 2 = k)%nat.
Proof. symmetry. apply Nat.div_unique with 0%nat; lia. Qed.

(** The median is the quantile of level one half. *)
Lemma median_is_half_quantile (a : list Q) (m : Q) :
  median a = Fin m -> m == linear_quantile (sort a) (1 # 2).
Proof.
  unfold median, linear_quantile.
  set (s := sort a). generalize (length s). intros n.
  destruct n as [|n']; [discriminate|]. cbv iota.
  remember (S n') as n eqn:Hn.
  assert (Hpos : (0 < n)%nat) by lia. clear n' Hn.
  destruct (Nat.odd n) eqn:Hodd; intros [= <-];
    change (fst (Nat.divmod n 1 0 1)) with (n / 2)%nat.
  - apply Nat.odd_spec in Hodd. destruct Hodd as [k Hk].
    assert (Hfloor : Qfloor (inject_Z (Z.of_nat n - 1) * (1 # 2)) = Z.of_nat k).
    { replace (Z.of_nat n - 1)%Z with (2 * Z.of_nat k)%Z by lia.
      apply Qfloor_unique; unfold Qle, Qlt, Qmult, inject_Z; cbn [Qnum Qden]; lia. }
    rewrite Hfloor, Nat2Z.id.
    replace (n / 2)%nat with k by (rewrite Hk; symmetry; apply half_of_odd).
    assert (Hg : inject_Z (Z.of_nat n - 1) * (1 # 2) - inject_Z (Z.of_nat k) == 0).
    { replace (Z.of_nat n - 1)%Z with (2 * Z.of_nat k)%Z by lia.
      unfold Qeq, Qminus, Qplus, Qopp, Qmult, inject_Z; cbn [Qnum Qden]; lia. }
    unfold lerp. rewrite Hg. ring.
  - assert (Heven : Nat.even n = true) by (rewrite <- Nat.negb_odd, Hodd; reflexivity).
    apply Nat.even_spec in Heven. destruct Heven as [k Hk].
    assert (Hfloor : Qfloor (inject_Z (Z.of_nat n - 1) * (1 # 2)) = (Z.of_nat k - 1)%Z).
    { replace (Z.of_nat n - 1)%Z with (2 * Z.of_nat k - 1)%Z by lia.
      apply Qfloor_unique; unfold Qle, Qlt, Qmult, inject_Z; cbn [Qnum Qden]; lia. }
    rewrite Hfloor.
    replace (n / 2)%nat with k by (rewrite Hk; symmetry; apply half_of_even).
    replace (Z.to_nat (Z.of_nat k - 1)) with (k - 1)%nat by lia.
    replace (Nat.min (S (k - 1)) (n - 1)) with k by lia.
    assert (Hg : inject_Z (Z.of_nat n - 1) * (1 # 2) - inject_Z (Z.of_nat k - 1) == 1 # 2).
    { replace (Z.of_nat n - 1)%Z with (2 * Z.of_nat k - 1)%Z by lia.
      unfold Qeq, Qminus, Qplus, Qopp, Qmult, inject_Z; cbn [Qnum Qden]; lia. }
    unfold lerp. rewrite Hg. field.
Qed.

Lemma median_defined (a : list Q) : a <> [] -> exists m, median a = Fin m.
Proof.
  intros Ha. unfold median. rewrite sort_length.
  destruct a as [|x t]; [congruence|]. cbn [length].
  destruct (Nat.odd (S (length t))); eexists; reflexivity.
Qed.

Lemma py_int_nonneg (x : Q) : 0 <= x -> py_int x = Qfloor x.
Proof.
  intros Hx. unfold py_int. apply Qle_bool_iff in Hx. now rewrite Hx.
Qed.

Lemma round_floor (x : Q) : (Qfloor x <= round x <= Qfloor x + 1)%Z.
Proof.
  unfold round.
  destruct (Qcompare (x - inject_Z (Qfloor x)) (1 # 2)); [|lia|lia].
  destruct (Z.even (Qfloor x)); lia.
Qed.

Lemma round_up_is_not_integer (x : Q) :
  round x <> Qfloor x -> inject_Z (Qfloor x) < x.
Proof.
  unfold round. intros H.
  destruct (Qcompare (x - inject_Z (Qfloor x)) (1 # 2)) eqn:E.
  - apply Qeq_alt in E. lra.
  - congruence.
  - apply Qgt_alt in E. lra.
Qed.

Lemma round_le_integer (x : Q) (z : Z) : x <= inject_Z z -> (round x <= z)%Z.
Proof.
  intros Hx. pose proof (round_floor x) as Hr. pose proof (Qfloor_le x) as Hf.
  assert (Hfz : (Qfloor x <= z)%Z).
  { rewrite Zle_Qle. now apply Qle_trans with x. }
  destruct (Z.eq_dec (round x) (Qfloor x)) as [E|E]; [lia|].
  apply round_up_is_not_integer in E.
  assert (Hlt : (Qfloor x < z)%Z).
  { rewrite Zlt_Qlt. now apply Qlt_le_trans with x. }
  lia.
Qed.

Lemma sorted_dates_nth (dates : list Z) (i j : nat) :
  StronglySorted Z.le dates -> (i <= j < length dates)%nat ->
  (nth i dates 0 <= nth j dates 0)%Z.
Proof.
  intros Hs Hij. destruct (Nat.eq_dec i j) as [->|Hne]; [lia|].
  apply sorted_nth_lt; [exact Hs|lia].
Qed.

End OrderStatistics.

(** ** The credible interval around the change-point date *)

Section CredibleInterval.

Import ChangePointModel Spec Examples.
Local Open Scope Q_scope.

(** C2, on the code: four tau draws, all 2.75, on an ascending axis of
    five dates.  The median 2.75 rounds to index 3, while the 97.5%
    quantile, also 2.75, is truncated to index 2: the reported date
    (40) lies after the end of the reported interval (30). *)
Lemma mode_date_after_interval_end :
  StronglySorted Z.le five_dates /\
  exists self' est,
    extract_change_point_date (fitted [2.75; 2.75; 2.75; 2.75] five_dates) 0.95
    = Ok (self', est) /\
    mode_index est = 3%Z /\
    mode_date est = 40%Z /\
    credible_interval est = (30%Z, 30%Z) /\
    (snd (credible_interval est) < mode_date est)%Z.
Proof.
  split.
  - unfold five_dates. repeat constructor; lia.
  - eexists _, _. split; [reflexivity|]. repeat split.
Qed.

(** C2, amended. For tau draws that all lie on the date axis (between 0
    and [len(dates) - 1]), a credible mass in [0,1] and an ascending
    date axis, the call succeeds and the start of the credible interval
    is never after the change-point date.  The change-point date is
    not after the end of the interval whenever the rounded median index
    does not exceed the truncated upper-quantile index; rounding the
    median while truncating the quantile lets it exceed that index, by
    one position at most. *)
Theorem interval_start_before_mode_date
        (self : SingleChangePointModel) (tr : InferenceData) (credible : Q) :
  trace self = Some tr ->
  pooled tr <> [] ->
  0 <= credible <= 1 ->
  (forall d, In d (pooled tr) ->
             0 <= tau d <= inject_Z (Z.of_nat (length (dates self)) - 1)) ->
  StronglySorted Z.le (dates self) ->
  exists self' est q_hi,
    extract_change_point_date self credible = Ok (self', est) /\
    quantile (posterior_flatten tau tr) (1 - (1 - credible) / 2) = Ok q_hi /\
    (fst (credible_interval est) <= mode_date est)%Z /\
    (mode_index est <= py_int q_hi + 1)%Z /\
    ((mode_index est <= py_int q_hi)%Z ->
     (mode_date est <= snd (credible_interval est))%Z).
Proof.
  intros Htr Hne [Hc0 Hc1] Hrange Hasc.
  set (nd := Z.of_nat (length (dates self))) in *.
  set (taus := posterior_flatten tau tr).
  assert (Htaus : taus = map tau (pooled tr)) by apply posterior_flatten_pooled.
  assert (Hne' : taus <> []).
  { rewrite Htaus. destruct (pooled tr); [congruence|discriminate]. }
  assert (Hall : forall x, In x (sort taus) -> 0 <= x <= inject_Z (nd - 1)).
  { intros x Hx. apply (Permutation_in _ (sort_perm taus)) in Hx.
    rewrite Htaus in Hx. apply in_map_iff in Hx.
    destruct Hx as (d & <- & Hd). now apply Hrange. }
  assert (Hsne : sort taus <> []).
  { intros E. apply Hne'. apply Permutation_nil.
    rewrite <- E. apply sort_perm. }
  pose proof (sort_sorted taus) as Hsorted.
  assert (Hlo : 0 <= (1 - credible) / 2 <= 1) by (split; lra_halves).
  assert (Hhi : 0 <= 1 - (1 - credible) / 2 <= 1) by (split; lra_halves).
  assert (Hlh : (1 - credible) / 2 <= 1 # 2) by lra_halves.
  assert (Hhh : 1 # 2 <= 1 - (1 - credible) / 2) by lra_halves.
  assert (Hhalf : 0 <= 1 # 2 <= 1) by (split; lra).
  destruct (median_defined Hne') as (med & Hmed).
  pose proof (median_is_half_quantile _ Hmed) as Hmq.
  set (q_lo := linear_quantile (sort taus) ((1 - credible) / 2)).
  set (q_hi := linear_quantile (sort taus) (1 - (1 - credible) / 2)).
  assert (Hq1 : q_lo <= med).
  { rewrite Hmq. apply linear_quantile_mono; try assumption; tauto. }
  assert (Hq2 : med <= q_hi).
  { rewrite Hmq. apply linear_quantile_mono; try assumption; tauto. }
  pose proof (linear_quantile_within Hsorted Hsne Hlo Hall) as Hwlo. fold q_lo in Hwlo.
  pose proof (linear_quantile_within Hsorted Hsne Hhi Hall) as Hwhi. fold q_hi in Hwhi.
  pose proof (linear_quantile_within Hsorted Hsne Hhalf Hall) as Hwmed.
  rewrite <- Hmq in Hwmed.
  (* the three indices *)
  assert (Hfloor0 : forall x, 0 <= x -> (0 <= Qfloor x)%Z).
  { intros x Hx. change 0%Z with (Qfloor 0). now apply Qfloor_resp_le. }
  assert (HfloorN : forall x, x <= inject_Z (nd - 1) -> (Qfloor x <= nd - 1)%Z).
  { intros x Hx. rewrite <- (Qfloor_Z (nd - 1)). now apply Qfloor_resp_le. }
  pose proof (round_floor med) as Hround.
  pose proof (@round_le_integer med (nd - 1) (proj2 Hwmed)) as HroundN.
  pose proof (Hfloor0 _ (proj1 Hwlo)) as Hl0.
  pose proof (Hfloor0 _ (proj1 Hwmed)) as Hm0.
  pose proof (Hfloor0 _ (proj1 Hwhi)) as Hh0.
  pose proof (HfloorN _ (proj2 Hwlo)) as HlN.
  pose proof (HfloorN _ (proj2 Hwhi)) as HhN.
  pose proof (Qfloor_resp_le _ _ Hq1) as Hlm.
  pose proof (Qfloor_resp_le _ _ Hq2) as Hmh.
  (* run the function *)
  unfold extract_change_point_date. rewrite Htr. fold taus. rewrite Hmed.
  rewrite py_int_inject_Z, !quantile_ok by assumption.
  fold q_lo q_hi.
  rewrite (@getitem_nonneg _ (dates self) (round med) 0%Z) by (fold nd; lia).
  cbn [bind].
  rewrite (py_int_nonneg (proj1 Hwlo)), (py_int_nonneg (proj1 Hwhi)).
  rewrite (@getitem_nonneg _ (dates self) (Qfloor q_lo) 0%Z) by (fold nd; lia).
  rewrite (@getitem_nonneg _ (dates self) (Qfloor q_hi) 0%Z) by (fold nd; lia).
  cbn [bind]. eexists _, _, q_hi. split; [reflexivity|]. split; [reflexivity|].
  cbn [mode_index mode_date credible_interval fst snd].
  rewrite (py_int_nonneg (proj1 Hwhi)).
  split; [|split; [lia|]].
  - apply sorted_dates_nth; [exact Hasc|]. unfold nd in *. lia.
  - intros Hle. apply sorted_dates_nth; [exact Hasc|]. unfold nd in *. lia.
Qed.

Lemma interval_start_before_mode_date_witness :
  exists self' est q_hi,
    extract_change_point_date (fitted [1.2; 2.2; 3.4] five_dates) 0.95 = Ok (self', est) /\
    quantile [1.2; 2.2; 3.4] (1 - (1 - 0.95) / 2) = Ok q_hi /\
    (fst (credible_interval est) <= mode_date est)%Z /\
    (mode_index est <= py_int q_hi + 1)%Z /\
    ((mode_index est <= py_int q_hi)%Z ->
     (mode_date est <= snd (credible_interval est))%Z).
Proof.
  apply (@interval_start_before_mode_date
           (fitted [1.2; 2.2; 3.4] five_dates) [map draw_at [1.2; 2.2; 3.4]] 0.95 eq_refl).
  - discriminate.
  - split; unfold Qle; simpl; lia.
  - intros d Hd. simpl in Hd.
    destruct Hd as [<-|[<-|[<-|[]]]]; split; unfold Qle; simpl; lia.
  - unfold five_dates. repeat constructor; lia.
Defined.

End CredibleInterval.

(** ** The median against the share of samples beyond a threshold *)

Section MedianAndCounts.

Local Open Scope Q_scope.

Lemma count_cons {A : Type} (p : A -> bool) (x : A) (l : list A) :
  count p (x :: l) = if p x then S (count p l) else count p l.
Proof. unfold count. simpl. now destruct (p x). Qed.

Lemma count_le_length {A : Type} (p : A -> bool) (l : list A) :
  (count p l <= length l)%nat.
Proof. apply filter_length_le. Qed.

Lemma count_none {A : Type} (p : A -> bool) (l : list A) :
  (forall x, In x l -> p x = false) -> count p l = 0%nat.
Proof.
  induction l as [|x l IH]; intros H; [reflexivity|].
  rewrite count_cons, (H x) by now left. apply IH. intros y Hy. apply H. now right.
Qed.

(** In an ascending array the entries above [t] are the last ones. *)
Lemma sorted_suffix_above (s : list Q) (t : Q) :
  StronglySorted Qle s ->
  forall i, (length s - count (Qlt_bool t) s <= i < length s)%nat ->
            t < nth i s 0.
Proof.
  induction 1 as [|x l Hs IH Hx]; intros i Hi; [simpl in Hi; lia|].
  rewrite count_cons in Hi. cbn [length] in Hi.
  destruct (Qlt_bool t x) eqn:E.
  - apply Qlt_bool_iff in E.
    destruct i as [|i]; [exact E|]. cbn [nth].
    apply Qlt_le_trans with x; [exact E|].
    rewrite Forall_forall in Hx. apply Hx, nth_In. clear - Hi. lia.
  - pose proof (count_le_length (Qlt_bool t) l) as Hc.
    destruct i as [|i]; [clear - Hi Hc; lia|]. cbn [nth]. apply IH.
    clear - Hi Hc. lia.
Qed.

(** In an ascending array the entries below [t] are the first ones. *)
Lemma sorted_prefix_below (s : list Q) (t : Q) :
  StronglySorted Qle s ->
  forall i, (i < count (fun x => Qlt_bool x t) s)%nat -> nth i s 0 < t.
Proof.
  induction 1 as [|x l Hs IH Hx]; intros i Hi; [cbv in Hi; lia|].
  rewrite count_cons in Hi.
  destruct (Qlt_bool x t) eqn:E.
  - apply Qlt_bool_iff in E.
    destruct i as [|i]; [exact E|]. cbn [nth]. apply IH. lia.
  - rewrite count_none in Hi; [lia|].
    intros y Hy. apply Qlt_bool_false_iff. apply Qlt_bool_false_iff in E.
    rewrite Forall_forall in Hx. apply Qle_trans with x; [exact E|now apply Hx].
Qed.

(** When more than half of the samples exceed [t], so does the median. *)
Lemma median_above (a : list Q) (t m : Q) :
  median a = Fin m ->
  (length a < 2 * count (Qlt_bool t) a)%nat ->
  t < m.
Proof.
  unfold median.
  rewrite <- (count_perm (Qlt_bool t) (sort_perm a)), <- (sort_length a).
  pose proof (sort_sorted a) as Hs.
  set (s := sort a) in *. set (c := count (Qlt_bool t) s).
  pose proof (sorted_suffix_above t Hs) as Hsuf. fold c in Hsuf.
  generalize dependent (length s). intros n Hsuf.
  destruct n as [|n']; [discriminate|]. cbv iota.
  remember (S n') as n eqn:Hn.
  assert (Hpos : (0 < n)%nat) by lia. clear n' Hn.
  destruct (Nat.odd n) eqn:Hodd; intros [= <-] Hc;
    change (fst (Nat.divmod n 1 0 1)) with (n / 2)%nat.
  - apply Nat.odd_spec in Hodd. destruct Hodd as [k Hk].
    replace (n / 2)%nat with k by (rewrite Hk; symmetry; apply half_of_odd).
    apply Hsuf. clearbody c. clear - Hk Hc Hpos. lia.
  - assert (Heven : Nat.even n = true) by (rewrite <- Nat.negb_odd, Hodd; reflexivity).
    apply Nat.even_spec in Heven. destruct Heven as [k Hk].
    replace (n / 2)%nat with k by (rewrite Hk; symmetry; apply half_of_even).
    assert (H1 : t < nth (k - 1) s 0) by (apply Hsuf; clearbody c; clear - Hk Hc Hpos; lia).
    assert (H2 : t < nth k s 0) by (apply Hsuf; clearbody c; clear - Hk Hc Hpos; lia).
    lra_halves.
Qed.

(** When more than half of the samples are below [t], so is the median. *)
Lemma median_below (a : list Q) (t m : Q) :
  median a = Fin m ->
  (length a < 2 * count (fun x => Qlt_bool x t) a)%nat ->
  m < t.
Proof.
  unfold median.
  rewrite <- (count_perm (fun x => Qlt_bool x t) (sort_perm a)), <- (sort_length a).
  pose proof (sort_sorted a) as Hs.
  set (s := sort a) in *. set (c := count (fun x => Qlt_bool x t) s).
  pose proof (sorted_prefix_below t Hs) as Hpre. fold c in Hpre.
  generalize dependent (length s). intros n.
  destruct n as [|n']; [discriminate|]. cbv iota.
  remember (S n') as n eqn:Hn.
  assert (Hpos : (0 < n)%nat) by lia. clear n' Hn.
  destruct (Nat.odd n) eqn:Hodd; intros [= <-] Hc;
    change (fst (Nat.divmod n 1 0 1)) with (n / 2)%nat.
  - apply Nat.odd_spec in Hodd. destruct Hodd as [k Hk].
    replace (n / 2)%nat with k by (rewrite Hk; symmetry; apply half_of_odd).
    apply Hpre. clearbody c. clear - Hk Hc Hpos. lia.
  - assert (Heven : Nat.even n = true) by (rewrite <- Nat.negb_odd, Hodd; reflexivity).
    apply Nat.even_spec in Heven. destruct Heven as [k Hk].
    replace (n / 2)%nat with k by (rewrite Hk; symmetry; apply half_of_even).
    assert (H1 : nth (k - 1) s 0 < t) by (apply Hpre; clearbody c; clear - Hk Hc Hpos; lia).
    assert (H2 : nth k s 0 < t) by (apply Hpre; clearbody c; clear - Hk Hc Hpos; lia).
    lra_halves.
Qed.

(** A share above nine tenths is a share above one half. *)
Lemma share_above_nine_tenths (c n : nat) :
  (0 < n)%nat ->
  0.9 < inject_Z (Z.of_nat c) / inject_Z (Z.of_nat n) ->
  (n < 2 * c)%nat.
Proof.
  intros Hn H.
  assert (Hnq : 0 < inject_Z (Z.of_nat n)).
  { change 0 with (inject_Z 0). rewrite <- Zlt_Qlt. lia. }
  apply (Qmult_lt_compat_r _ _ _ Hnq) in H.
  rewrite (Qmult_comm (_ / _)), Qmult_div_r in H
    by (intros E; rewrite E in Hnq; apply (Qlt_irrefl _ Hnq)).
  unfold Qlt, Qmult, inject_Z in H. cbn [Qnum Qden] in H. lia.
Qed.

End MedianAndCounts.

(** ** The wording of the narrative *)

Section NarrativeFacts.

Import ChangePointModel EventAnalyzer Spec Examples.
Local Open Scope Q_scope.
Local Open Scope string_scope.

(** C5, on the code: the directional word depends on the two
    probabilities alone.  A summary with median shift 0 and a
    probability of increase of 0.95 is worded "increase". *)
Lemma zero_median_worded_as_increase :
  lookup "mean_shift_median" overconfident_summary = Some (Float (Fin 0)) /\
  exists n,
    quantify_event_impact catalogue (event_on 10) overconfident_summary 80 95 = Ok n /\
    direction n = "increase".
Proof. split; [reflexivity|]. eexists. split; reflexivity. Qed.

(** The wording on a dictionary of the shape [quantify_impact] builds,
    when neither probability exceeds 0.9. *)
Lemma neutral_when_no_probability_exceeds
      (analyzer : EventImpactAnalyzer) (event : Event)
      (med p_inc p_dec vmed p_vol : float) (ci vci : pyval) (before after : Q) :
  gt p_inc (Fin 0.9) = false ->
  gt p_dec (Fin 0.9) = false ->
  exists n,
    quantify_event_impact analyzer event
      [ ("mean_shift_median", Float med);
        ("mean_shift_ci", ci);
        ("prob_mean_increase", Float p_inc);
        ("prob_mean_decrease", Float p_dec);
        ("vol_shift_median", Float vmed);
        ("vol_shift_ci", vci);
        ("prob_vol_increase", Float p_vol) ] before after = Ok n /\
    direction n = "shift".
Proof.
  intros Hinc Hdec. unfold quantify_event_impact, getnum.
  cbn [lookup String.eqb Ascii.eqb Bool.eqb bind].
  rewrite Hinc. cbn [lookup String.eqb Ascii.eqb Bool.eqb bind].
  rewrite Hdec. cbn [bind]. eexists. split; reflexivity.
Qed.

Lemma fraction_nonempty {A : Type} (p : A -> bool) (l : list A) :
  l <> [] ->
  fraction p l = Fin (inject_Z (Z.of_nat (count p l)) / inject_Z (Z.of_nat (length l))).
Proof. destruct l; [congruence|reflexivity]. Qed.

(** C5, amended. For every impact summary that [quantify_impact]
    computes from a posterior with at least one draw: when its
    [mean_shift_median] equals 0, neither probability exceeds 0.9 and
    the narrative uses the neutral "shift", never "increase" or
    "decrease".  (On a dictionary not computed this way the wording
    follows the probabilities alone.) *)
Theorem zero_median_gives_neutral_wording
        (analyzer : EventImpactAnalyzer) (event : Event)
        (self : SingleChangePointModel) (tr : InferenceData) (before after : Q) :
  trace self = Some tr ->
  pooled tr <> [] ->
  exists d m,
    quantify_impact self = Ok d /\
    lookup "mean_shift_median" d = Some (Float (Fin m)) /\
    (m == 0 ->
     exists n,
       quantify_event_impact analyzer event d before after = Ok n /\
       direction n = "shift").
Proof.
  intros Htr Hne.
  pose proof (quantify_impact_on_draws _ Htr Hne) as Hd. cbv zeta in Hd.
  assert (Hne' : map mean_shift_of (pooled tr) <> []).
  { destruct (pooled tr); [congruence|discriminate]. }
  destruct (median_defined Hne') as (m & Hm). rewrite Hm in Hd.
  eexists _, m. split; [exact Hd|]. split; [reflexivity|].
  intros Hzero.
  assert (Hn : (0 < length (pooled tr))%nat).
  { destruct (pooled tr); [congruence|simpl; lia]. }
  apply neutral_when_no_probability_exceeds.
  - rewrite (fraction_nonempty _ Hne). unfold gt.
    destruct (Qlt_bool 0.9 _) eqn:E; [exfalso|reflexivity].
    apply Qlt_bool_iff, (share_above_nine_tenths _ Hn) in E.
    assert (Habove : 0.01 < m).
    { apply (median_above _ _ Hm). now rewrite length_map, count_map. }
    rewrite Hzero in Habove. revert Habove. apply Qle_not_lt. lra.
  - rewrite (fraction_nonempty _ Hne). unfold gt.
    destruct (Qlt_bool 0.9 _) eqn:E; [exfalso|reflexivity].
    apply Qlt_bool_iff, (share_above_nine_tenths _ Hn) in E.
    assert (Hbelow : m < -0.01).
    { apply (median_below _ _ Hm). now rewrite length_map, count_map. }
    rewrite Hzero in Hbelow. revert Hbelow. apply Qle_not_lt. lra.
Qed.

Lemma zero_median_gives_neutral_wording_witness :
  exists d n,
    quantify_impact balanced_fit = Ok d /\
    quantify_event_impact catalogue (event_on 10) d 80 95 = Ok n /\
    direction n = "shift".
Proof.
  destruct (@zero_median_gives_neutral_wording
              catalogue (event_on 10) balanced_fit _ 80 95 eq_refl ltac:(discriminate))
    as (d & m & Hd & Hm & Hdir).
  assert (Hzero : m == 0).
  { vm_compute in Hd. injection Hd as <-. vm_compute in Hm.
    injection Hm as <-. reflexivity. }
  destruct (Hdir Hzero) as (n & Hn & Hword).
  exists d, n. split; [exact Hd|]. split; [exact Hn|exact Hword].
Defined.

End NarrativeFacts.

(** * Further properties of the code *)

(** ** The impact summary as a whole *)

Section ImpactSummaryFacts.

Import ChangePointModel EventAnalyzer Spec Examples.
Local Open Scope Q_scope.
Local Open Scope string_scope.

Lemma band_brackets_median (a : list Q) (m : Q) :
  a <> [] ->
  median a = Fin m ->
  linear_quantile (sort a) (2.5 / 100) <= m <= linear_quantile (sort a) (97.5 / 100).
Proof.
  intros Ha Hm.
  assert (Hs : sort a <> []).
  { intros E. apply Ha, Permutation_nil. rewrite <- E. apply sort_perm. }
  pose proof (sort_sorted a) as Hsorted.
  rewrite (median_is_half_quantile _ Hm).
  split; apply linear_quantile_mono; try assumption;
    unfold Qle; simpl; lia.
Qed.

Lemma count_disjoint {A : Type} (p q : A -> bool) (l : list A) :
  (forall x, p x = true -> q x = false) ->
  (count p l + count q l <= length l)%nat.
Proof.
  intros Hpq. induction l as [|x l IH]; [cbv; lia|].
  rewrite !count_cons. cbn [length].
  destruct (p x) eqn:Ep; [rewrite (Hpq x Ep)|destruct (q x)]; lia.
Qed.

Lemma share_in_unit (c n : nat) :
  (0 < n)%nat -> (c <= n)%nat ->
  0 <= inject_Z (Z.of_nat c) / inject_Z (Z.of_nat n) <= 1.
Proof.
  intros Hn Hc.
  assert (Hnq : 0 < inject_Z (Z.of_nat n)).
  { change 0 with (inject_Z 0). rewrite <- Zlt_Qlt. lia. }
  assert (Hone : inject_Z (Z.of_nat n) / inject_Z (Z.of_nat n) == 1).
  { apply Qmult_inv_r. intros E. rewrite E in Hnq. apply (Qlt_irrefl _ Hnq). }
  assert (Hzero : inject_Z 0 / inject_Z (Z.of_nat n) == 0) by (unfold Qdiv; apply Qmult_0_l).
  split.
  - rewrite <- Hzero. apply Qdiv_le_mono; [exact Hnq|]. rewrite <- Zle_Qle. lia.
  - rewrite <- Hone. apply Qdiv_le_mono; [exact Hnq|]. rewrite <- Zle_Qle. lia.
Qed.

Lemma shares_add (c1 c2 n : nat) :
  (0 < n)%nat ->
  inject_Z (Z.of_nat c1) / inject_Z (Z.of_nat n)
  + inject_Z (Z.of_nat c2) / inject_Z (Z.of_nat n)
  == inject_Z (Z.of_nat (c1 + c2)) / inject_Z (Z.of_nat n).
Proof.
  intros Hn.
  assert (Hnq : 0 < inject_Z (Z.of_nat n)).
  { change 0 with (inject_Z 0). rewrite <- Zlt_Qlt. lia. }
  rewrite Nat2Z.inj_add, inject_Z_plus. field.
  intros E. rewrite E in Hnq. apply (Qlt_irrefl _ Hnq).
Qed.

(** X1. In the dictionary that [quantify_impact] returns for a posterior
    with at least one draw, each reported band brackets its median:
    the 2.5% bound of [mean_shift_ci] is at most [mean_shift_median],
    which is at most the 97.5% bound, and likewise for the volatility
    shift. *)
Theorem impact_bands_bracket_medians (self : SingleChangePointModel) (tr : InferenceData) :
  trace self = Some tr ->
  pooled tr <> [] ->
  exists d m lo hi vm vlo vhi,
    quantify_impact self = Ok d /\
    lookup "mean_shift_median" d = Some (Float (Fin m)) /\
    lookup "mean_shift_ci" d = Some (Pair lo hi) /\
    lo <= m <= hi /\
    lookup "vol_shift_median" d = Some (Float (Fin vm)) /\
    lookup "vol_shift_ci" d = Some (Pair vlo vhi) /\
    vlo <= vm <= vhi.
Proof.
  intros Htr Hne.
  pose proof (quantify_impact_on_draws _ Htr Hne) as Hd. cbv zeta in Hd.
  assert (Hm' : map mean_shift_of (pooled tr) <> [])
    by (destruct (pooled tr); [congruence|discriminate]).
  assert (Hv' : map vol_shift_of (pooled tr) <> [])
    by (destruct (pooled tr); [congruence|discriminate]).
  destruct (median_defined Hm') as (m & Hm).
  destruct (median_defined Hv') as (vm & Hvm).
  rewrite Hm, Hvm in Hd.
  eexists _, m, _, _, vm, _, _. split; [exact Hd|].
  split; [reflexivity|]. split; [reflexivity|].
  split; [now apply band_brackets_median|].
  split; [reflexivity|]. split; [reflexivity|].
  now apply band_brackets_median.
Qed.

Lemma impact_bands_bracket_medians_witness :
  exists d m lo hi vm vlo vhi,
    quantify_impact two_chain_fit = Ok d /\
    lookup "mean_shift_median" d = Some (Float (Fin m)) /\
    lookup "mean_shift_ci" d = Some (Pair lo hi) /\
    lo <= m <= hi /\
    lookup "vol_shift_median" d = Some (Float (Fin vm)) /\
    lookup "vol_shift_ci" d = Some (Pair vlo vhi) /\
    vlo <= vm <= vhi.
Proof.
  apply (@impact_bands_bracket_medians two_chain_fit two_chain_trace eq_refl).
  discriminate.
Defined.

(** X2. In the dictionary that [quantify_impact] returns for a posterior
    with at least one draw, the three probabilities are numbers between
    0 and 1, and the probabilities of a mean increase and of a mean
    decrease together do not exceed 1. *)
Theorem impact_probabilities_are_shares (self : SingleChangePointModel) (tr : InferenceData) :
  trace self = Some tr ->
  pooled tr <> [] ->
  exists d p_inc p_dec p_vol,
    quantify_impact self = Ok d /\
    lookup "prob_mean_increase" d = Some (Float (Fin p_inc)) /\
    lookup "prob_mean_decrease" d = Some (Float (Fin p_dec)) /\
    lookup "prob_vol_increase" d = Some (Float (Fin p_vol)) /\
    0 <= p_inc <= 1 /\ 0 <= p_dec <= 1 /\ 0 <= p_vol <= 1 /\
    p_inc + p_dec <= 1.
Proof.
  intros Htr Hne.
  pose proof (quantify_impact_on_draws _ Htr Hne) as Hd. cbv zeta in Hd.
  rewrite !(fraction_nonempty _ Hne) in Hd.
  assert (Hn : (0 < length (pooled tr))%nat)
    by (destruct (pooled tr); [congruence|simpl; lia]).
  eexists _, _, _, _. split; [exact Hd|].
  split; [reflexivity|]. split; [reflexivity|]. split; [reflexivity|].
  split; [apply share_in_unit; [exact Hn|apply count_le_length]|].
  split; [apply share_in_unit; [exact Hn|apply count_le_length]|].
  split; [apply share_in_unit; [exact Hn|apply count_le_length]|].
  rewrite (shares_add _ _ Hn).
  apply share_in_unit; [exact Hn|].
  apply count_disjoint. intros x Hx.
  apply Qlt_bool_iff in Hx. apply Qlt_bool_false_iff. lra.
Qed.

Lemma impact_probabilities_are_shares_witness :
  exists d p_inc p_dec p_vol,
    quantify_impact two_chain_fit = Ok d /\
    lookup "prob_mean_increase" d = Some (Float (Fin p_inc)) /\
    lookup "prob_mean_decrease" d = Some (Float (Fin p_dec)) /\
    lookup "prob_vol_increase" d = Some (Float (Fin p_vol)) /\
    0 <= p_inc <= 1 /\ 0 <= p_dec <= 1 /\ 0 <= p_vol <= 1 /\
    p_inc + p_dec <= 1.
Proof.
  apply (@impact_probabilities_are_shares two_chain_fit two_chain_trace eq_refl).
  discriminate.
Defined.

End ImpactSummaryFacts.

(** ** The narrative of a computed summary *)

Section NarrativeOfSummary.

Import ChangePointModel EventAnalyzer Spec Examples.
Local Open Scope Q_scope.
Local Open Scope string_scope.

(** The sentence built from a dictionary of the shape [quantify_impact]
    returns. *)
Lemma narrative_on_summary_shape
      (analyzer : EventImpactAnalyzer) (event : Event)
      (med p_inc p_dec vmed p_vol : float) (ci vci : pyval) (before after : Q) :
  quantify_event_impact analyzer event
    [ ("mean_shift_median", Float med);
      ("mean_shift_ci", ci);
      ("prob_mean_increase", Float p_inc);
      ("prob_mean_decrease", Float p_dec);
      ("vol_shift_median", Float vmed);
      ("vol_shift_ci", vci);
      ("prob_vol_increase", Float p_vol) ] before after
  = Ok {| subject_type := event_type event;
          subject_description := description event;
          subject_date := date event;
          direction := if gt p_inc (Fin 0.9) then "increase"
                       else if gt p_dec (Fin 0.9) then "decrease" else "shift";
          magnitude_prefix := if gt p_inc (Fin 0.9) then "+" else "";
          magnitude_shift := med;
          probability := p_inc;
          vol_verb := if gt vmed (Fin 0) then "increased" else "decreased";
          vol_shift := vmed |}.
Proof.
  unfold quantify_event_impact, getnum.
  cbn [lookup String.eqb Ascii.eqb Bool.eqb bind].
  destruct (gt p_inc (Fin 0.9)); cbn [lookup String.eqb Ascii.eqb Bool.eqb bind fst snd];
    [reflexivity|].
  destruct (gt p_dec (Fin 0.9)); reflexivity.
Qed.

(** The dictionary of a posterior with at least one draw, with its two
    mean-shift probabilities named. *)
Lemma computed_summary_shape (self : SingleChangePointModel) (tr : InferenceData) :
  trace self = Some tr ->
  pooled tr <> [] ->
  exists med ci p_inc p_dec vmed vci p_vol,
    quantify_impact self
    = Ok [ ("mean_shift_median", Float med);
           ("mean_shift_ci", ci);
           ("prob_mean_increase", Float (Fin p_inc));
           ("prob_mean_decrease", Float (Fin p_dec));
           ("vol_shift_median", Float vmed);
           ("vol_shift_ci", vci);
           ("prob_vol_increase", Float p_vol) ] /\
    p_inc + p_dec <= 1.
Proof.
  intros Htr Hne.
  pose proof (quantify_impact_on_draws _ Htr Hne) as Hd. cbv zeta in Hd.
  rewrite (fraction_nonempty (fun d => Qlt_bool 0.01 (mean_shift_of d)) Hne) in Hd.
  rewrite (fraction_nonempty (fun d => Qlt_bool (mean_shift_of d) (-0.01)) Hne) in Hd.
  assert (Hn : (0 < length (pooled tr))%nat)
    by (destruct (pooled tr); [congruence|simpl; lia]).
  eexists _, _, _, _, _, _, _. split; [exact Hd|].
  rewrite (shares_add _ _ Hn).
  apply share_in_unit; [exact Hn|].
  apply count_disjoint. intros x Hx.
  apply Qlt_bool_iff in Hx. apply Qlt_bool_false_iff. lra.
Qed.

(** X3. Producer and consumer fit: on the dictionary that
    [quantify_impact] returns for a posterior with at least one draw,
    [quantify_event_impact] always produces a sentence (no key is
    missing).  The probability it prints is the probability of a mean
    increase whatever the word is: above 0.9 when the word is
    "increase", but below 0.1 when the word is "decrease". *)
Theorem narrative_of_computed_summary
        (analyzer : EventImpactAnalyzer) (event : Event)
        (self : SingleChangePointModel) (tr : InferenceData) (before after : Q) :
  trace self = Some tr ->
  pooled tr <> [] ->
  exists d n p_inc,
    quantify_impact self = Ok d /\
    lookup "prob_mean_increase" d = Some (Float (Fin p_inc)) /\
    quantify_event_impact analyzer event d before after = Ok n /\
    probability n = Fin p_inc /\
    (direction n = "increase" \/ direction n = "decrease" \/ direction n = "shift") /\
    (direction n = "increase" -> 0.9 < p_inc) /\
    (direction n = "decrease" -> p_inc < 0.1).
Proof.
  intros Htr Hne.
  destruct (computed_summary_shape _ Htr Hne)
    as (med & ci & p_inc & p_dec & vmed & vci & p_vol & Hd & Hsum).
  eexists _, _, p_inc. split; [exact Hd|].
  split; [reflexivity|].
  split; [apply narrative_on_summary_shape|].
  cbn [probability direction]. split; [reflexivity|].
  unfold gt.
  destruct (Qlt_bool 0.9 p_inc) eqn:Ei.
  - apply Qlt_bool_iff in Ei.
    split; [now left|]. split; [intros _; exact Ei|discriminate].
  - destruct (Qlt_bool 0.9 p_dec) eqn:Ed.
    + apply Qlt_bool_iff in Ed.
      split; [right; now left|]. split; [discriminate|]. intros _. lra.
    + split; [right; now right|]. split; discriminate.
Qed.

Lemma narrative_of_computed_summary_witness :
  exists d n p_inc,
    quantify_impact falling_fit = Ok d /\
    lookup "prob_mean_increase" d = Some (Float (Fin p_inc)) /\
    quantify_event_impact catalogue (event_on 10) d 80 95 = Ok n /\
    probability n = Fin p_inc /\
    direction n = "decrease" /\
    p_inc < 0.1.
Proof.
  destruct (@narrative_of_computed_summary
              catalogue (event_on 10) falling_fit _ 80 95 eq_refl ltac:(discriminate))
    as (d & n & p_inc & Hd & Hp & Hn & Hprob & _ & _ & Hdec).
  assert (Hword : direction n = "decrease").
  { vm_compute in Hd. injection Hd as <-. vm_compute in Hn.
    injection Hn as <-. reflexivity. }
  exists d, n, p_inc. repeat split; try assumption. exact (Hdec Hword).
Defined.

(** X4. [prob_mean_decrease] is read only when the probability of an
    increase does not exceed 0.9: on a dictionary without that key the
    sentence is still produced, worded "increase", when
    [prob_mean_increase] is above 0.9, and the call raises
    [KeyError('prob_mean_decrease')] otherwise. *)
Theorem decrease_probability_is_read_lazily
        (analyzer : EventImpactAnalyzer) (event : Event) (d : dict)
        (med p_inc vmed : float) (before after : Q) :
  lookup "mean_shift_median" d = Some (Float med) ->
  lookup "prob_mean_increase" d = Some (Float p_inc) ->
  lookup "vol_shift_median" d = Some (Float vmed) ->
  lookup "prob_mean_decrease" d = None ->
  (gt p_inc (Fin 0.9) = true ->
   exists n, quantify_event_impact analyzer event d before after = Ok n /\
             direction n = "increase" /\ magnitude_prefix n = "+") /\
  (gt p_inc (Fin 0.9) = false ->
   quantify_event_impact analyzer event d before after
   = Raise (KeyError "prob_mean_decrease")).
Proof.
  intros Hmed Hinc Hvol Hdec. unfold quantify_event_impact, getnum.
  rewrite Hmed, Hinc, Hvol, Hdec. cbn [bind]. split; intros Hgt; rewrite Hgt; cbn [bind].
  - eexists. split; [reflexivity|]. split; reflexivity.
  - reflexivity.
Qed.

Lemma decrease_probability_is_read_lazily_witness :
  (exists n, quantify_event_impact catalogue (event_on 10)
                                   (summary_without_decrease 0.95) 80 95 = Ok n /\
             direction n = "increase" /\ magnitude_prefix n = "+") /\
  quantify_event_impact catalogue (event_on 10) (summary_without_decrease 0.5) 80 95
  = Raise (KeyError "prob_mean_decrease").
Proof.
  split.
  - apply (proj1 (@decrease_probability_is_read_lazily
                    catalogue (event_on 10) (summary_without_decrease 0.95)
                    _ _ _ 80 95 eq_refl eq_refl eq_refl eq_refl)).
    reflexivity.
  - apply (proj2 (@decrease_probability_is_read_lazily
                    catalogue (event_on 10) (summary_without_decrease 0.5)
                    _ _ _ 80 95 eq_refl eq_refl eq_refl eq_refl)).
    reflexivity.
Defined.

End NarrativeOfSummary.

(** ** More on event association *)

Section AssociationEdges.

Import EventAnalyzer Spec Examples.
Local Open Scope Z_scope.

(** Every returned match is an in-window event of the catalogue with the
    two computed columns. *)
Lemma associate_matches (self : EventImpactAnalyzer) (cp W : Z) (m : EventMatch) :
  In m (associate_change_points self cp W) ->
  In (event m) (events self) /\
  in_window cp W (event m) = true /\
  days_from_cp m = Z.abs (dt_days (date (event m) - cp)) /\
  proximity_score m
  = fsub (Fin 1) (fdiv (Fin (inject_Z (days_from_cp m))) (Fin (inject_Z W))).
Proof.
  intros Hm. apply (Permutation_in _ (associate_is_scored_window self cp W)) in Hm.
  apply in_map_iff in Hm. destruct Hm as (e & <- & He).
  apply filter_In in He. destruct He as (He & Hw). cbn. now repeat split.
Qed.

Lemma in_window_bounds (cp W : Z) (e : Event) :
  in_window cp W e = true <->
  cp - W * day_ns <= date e <= cp + W * day_ns.
Proof.
  unfold in_window. rewrite andb_true_iff, !Z.leb_le. reflexivity.
Qed.

(** X5. [associate_change_points] returns the empty list exactly when no
    event of the catalogue is dated inside the window; in particular for
    an empty catalogue, and for every catalogue when [window_days] is
    negative. *)
Theorem associate_empty_iff_none_in_window (self : EventImpactAnalyzer) (cp W : Z) :
  (associate_change_points self cp W = [] <->
   forall e, In e (events self) -> in_window cp W e = false) /\
  (events self = [] -> associate_change_points self cp W = []) /\
  (W < 0 -> associate_change_points self cp W = []).
Proof.
  assert (Hiff : associate_change_points self cp W = [] <->
                 forall e, In e (events self) -> in_window cp W e = false).
  { split.
    - intros Hnil e He. destruct (in_window cp W e) eqn:Hw; [|reflexivity].
      pose proof (associate_is_scored_window self cp W) as Hperm.
      rewrite Hnil in Hperm. apply Permutation_nil in Hperm.
      apply map_eq_nil in Hperm.
      assert (Hin : In e (filter (in_window cp W) (events self)))
        by (apply filter_In; now split).
      rewrite Hperm in Hin. destruct Hin.
    - intros Hnone.
      destruct (associate_change_points self cp W) as [|m t] eqn:E; [reflexivity|].
      assert (Hm : In m (associate_change_points self cp W)) by (rewrite E; now left).
      destruct (@associate_matches _ _ _ _ Hm) as (He & Hw & _).
      rewrite (Hnone _ He) in Hw. discriminate. }
  split; [exact Hiff|]. split.
  - intros Hno. apply Hiff. rewrite Hno. intros e [].
  - intros HW. apply Hiff. intros e _.
    destruct (in_window cp W e) eqn:Hw; [|reflexivity].
    apply in_window_bounds in Hw.
    assert (HD : 0 < day_ns) by reflexivity. nia.
Qed.

Lemma associate_empty_iff_none_in_window_witness :
  associate_change_points catalogue (10 * day_ns) (-7) = [] /\
  associate_change_points {| events := [] |} (10 * day_ns) 7 = [].
Proof.
  split.
  - apply (proj2 (proj2 (associate_empty_iff_none_in_window catalogue (10 * day_ns) (-7)))).
    reflexivity.
  - apply (proj1 (proj2 (associate_empty_iff_none_in_window
                           {| events := [] |} (10 * day_ns) 7))).
    reflexivity.
Defined.

(** X6. Distances are counted in whole days, and not symmetrically: for
    a returned event dated at or after the change point the distance is
    the number of complete days elapsed (rounded down), for one dated
    before the change point it is the number of days rounded up.  So an
    event half a day after the change point is at distance 0, one half a
    day before it at distance 1. *)
Theorem days_round_down_after_up_before
        (self : EventImpactAnalyzer) (cp W : Z) (m : EventMatch) :
  In m (associate_change_points self cp W) ->
  let delta := date (event m) - cp in
  (0 <= delta ->
   days_from_cp m * day_ns <= delta < (days_from_cp m + 1) * day_ns) /\
  (delta < 0 ->
   (days_from_cp m - 1) * day_ns < - delta <= days_from_cp m * day_ns).
Proof.
  intros Hm delta.
  destruct (@associate_matches _ _ _ _ Hm) as (_ & _ & Hdays & _).
  fold delta in Hdays. unfold dt_days in Hdays.
  assert (HD : 0 < day_ns) by reflexivity.
  pose proof (Z.div_mod delta day_ns ltac:(lia)) as Hdm.
  pose proof (Z.mod_pos_bound delta day_ns HD) as Hr.
  split; intros Hsign.
  - assert (Hq : 0 <= delta / day_ns) by (apply Z.div_pos; lia).
    rewrite Z.abs_eq in Hdays by exact Hq. rewrite Hdays. nia.
  - assert (Hq : delta / day_ns < 0) by (apply Z.div_lt_upper_bound; lia).
    rewrite Z.abs_neq in Hdays by lia. rewrite Hdays. nia.
Qed.

Lemma days_round_down_after_up_before_witness :
  map (fun m => (date (event m) - 240 * 3600000000000, days_from_cp m))
      (associate_change_points {| events := [event_at_hour 228; event_at_hour 252] |}
                               (240 * 3600000000000) 7)
  = [ (12 * 3600000000000, 0); (- 12 * 3600000000000, 1) ] /\
  (1 - 1) * day_ns < 12 * 3600000000000 <= 1 * day_ns.
Proof.
  split; [reflexivity|].
  apply (@days_round_down_after_up_before
           {| events := [event_at_hour 228; event_at_hour 252] |}
           (240 * 3600000000000) 7
           {| event := event_at_hour 228;
              days_from_cp := 1;
              proximity_score := Fin (1 - inject_Z 1 / inject_Z 7) |}).
  - right. left. reflexivity.
  - reflexivity.
Defined.

Lemma all_related_sorted {A : Type} (R : A -> A -> Prop) (l : list A) :
  (forall a b, In a l -> In b l -> R a b) -> StronglySorted R l.
Proof.
  induction l as [|x l IH]; intros H; constructor.
  - apply IH. intros a b Ha Hb. apply H; now right.
  - apply Forall_forall. intros y Hy. apply H; [now left|now right].
Qed.

Lemma Qdiv_le_cancel (a b w : Q) : (0 < w -> a / w <= b / w -> a <= b)%Q.
Proof.
  intros Hw H.
  assert (Hne : ~ (w == 0)%Q) by (intros E; rewrite E in Hw; apply (Qlt_irrefl _ Hw)).
  apply (Qmult_le_compat_r _ _ w) in H; [|now apply Qlt_le_weak].
  rewrite !(Qmult_comm _ w), !Qmult_div_r in H by exact Hne. exact H.
Qed.

(** X7. Whatever the window, the matches come out nearest first: the
    result is in ascending order of [days_from_cp], so its first entry
    is an event at the smallest distance from the change point. *)
Theorem nearest_event_first (self : EventImpactAnalyzer) (cp W : Z) :
  StronglySorted (fun a b => days_from_cp a <= days_from_cp b)
                 (associate_change_points self cp W).
Proof.
  assert (Hdays : forall m, In m (associate_change_points self cp W) ->
                            0 <= days_from_cp m <= W).
  { intros m Hm. destruct (@associate_matches _ _ _ _ Hm) as (_ & Hw & Hd & _).
    rewrite Hd. split; [apply Z.abs_nonneg|].
    apply days_within_window. now apply in_window_bounds. }
  destruct (Z_lt_le_dec 0 W) as [HW|HW].
  - apply strongly_sorted_impl with (R := fun a b => score_before a b = true).
    + intros a b Ha Hb.
      destruct (@associate_matches _ _ _ _ Ha) as (_ & _ & _ & Hsa).
      destruct (@associate_matches _ _ _ _ Hb) as (_ & _ & _ & Hsb).
      unfold score_before, lt. rewrite Hsa, Hsb, !score_on_positive_window by exact HW.
      cbn. rewrite negb_true_iff, Qlt_bool_false_iff. intros Hle.
      assert (HWq : (inject_Z 0 < inject_Z W)%Q) by (rewrite <- Zlt_Qlt; exact HW).
      change (inject_Z 0) with 0%Q in HWq.
      rewrite Zle_Qle. apply Qdiv_le_cancel with (inject_Z W); [exact HWq|].
      set (x := (inject_Z (days_from_cp a) / inject_Z W)%Q) in *.
      set (y := (inject_Z (days_from_cp b) / inject_Z W)%Q) in *.
      lra.
    + unfold associate_change_points.
      match goal with |- context [match ?f with [] => [] | _ :: _ => _ end] =>
        destruct f end; [constructor|].
      apply sort_by_sorted; [apply score_before_total|apply score_before_trans].
  - apply all_related_sorted. intros a b Ha Hb.
    pose proof (Hdays a Ha). pose proof (Hdays b Hb). lia.
Qed.

End AssociationEdges.

(** ** Extraction and the posterior plot *)

Section ExtractionAndPlot.

Import ChangePointModel Spec Examples.
Local Open Scope Q_scope.

Lemma getitem_ok_in_range {A : Type} (l : list A) (i : Z) (x : A) :
  getitem l i = Ok x -> (- Z.of_nat (length l) <= i < Z.of_nat (length l))%Z.
Proof.
  intros H.
  destruct (Z_le_dec (- Z.of_nat (length l)) i) as [H1|H1];
    [destruct (Z_lt_dec i (Z.of_nat (length l))) as [H2|H2]; [lia|]|];
    rewrite getitem_out_of_range in H by lia; discriminate.
Qed.

Lemma round_le_ceiling (x : Q) : (round x <= Qceiling x)%Z.
Proof.
  pose proof (round_floor x) as Hr.
  destruct (Z.eq_dec (round x) (Qfloor x)) as [E|E].
  - rewrite E, Zle_Qle. apply Qle_floor_ceiling.
  - apply round_up_is_not_integer in E.
    assert (Hlt : (Qfloor x < Qceiling x)%Z).
    { rewrite Zlt_Qlt. apply Qlt_le_trans with x; [exact E|apply Qle_ceiling]. }
    lia.
Qed.

(** Truncation stays between zero and the rounded value. *)
Lemma py_int_between_zero_and_round (x : Q) :
  (0 <= py_int x <= round x)%Z \/ (round x <= py_int x <= 0)%Z.
Proof.
  unfold py_int. destruct (Qle_bool 0 x) eqn:E.
  - left. apply Qle_bool_iff in E. pose proof (round_floor x).
    assert ((0 <= Qfloor x)%Z) by (change 0%Z with (Qfloor 0); now apply Qfloor_resp_le).
    lia.
  - right. pose proof (round_le_ceiling x).
    assert (Hneg : x <= 0).
    { destruct (Qlt_le_dec 0 x) as [H0|H0]; [|exact H0].
      apply Qlt_le_weak, Qle_bool_iff in H0. congruence. }
    assert ((Qceiling x <= 0)%Z) by (change 0%Z with (Qceiling 0); now apply Qceiling_resp_le).
    lia.
Qed.

(** X8. The posterior plot is refused until the change-point date has
    been extracted: on an object that was only constructed, or
    constructed and sampled, [plot_posterior_tau] raises [ValueError];
    sampling keeps the data and the dates and stores the trace. *)
Theorem plot_refused_before_extraction
        (pm_sample : Model -> SampleConfig -> result InferenceData)
        (series : list Q) (axis : list Z)
        (self0 self1 : SingleChangePointModel) (tr : InferenceData)
        (draws tune chains : nat) (target_accept : Q) :
  __init__ series axis = Ok self0 ->
  sample pm_sample self0 draws tune chains target_accept = Ok (self1, tr) ->
  plot_posterior_tau self0 = Raise ValueError /\
  plot_posterior_tau self1 = Raise ValueError /\
  data self1 = series /\
  dates self1 = axis /\
  trace self1 = Some tr.
Proof.
  unfold __init__. destruct (negb (length series =? length axis)%nat); [discriminate|].
  intros [= <-]. unfold sample. cbn [model build_model].
  destruct (pm_sample _ _) as [tr'|e]; cbn [bind]; [|discriminate].
  intros [= <- <-]. repeat split.
Qed.

Lemma plot_refused_before_extraction_witness :
  exists self1,
    sample obliging_sampler forty_points 500 500 2 0.85 = Ok (self1, one_draw_trace) /\
    plot_posterior_tau self1 = Raise ValueError /\
    length (data self1) = 40%nat.
Proof.
  eexists. split; [reflexivity|].
  destruct (@plot_refused_before_extraction
              obliging_sampler (repeat 0 40) (map Z.of_nat (seq 0 40))
              forty_points _ one_draw_trace 500 500 2 0.85 eq_refl eq_refl)
    as (_ & Hplot & Hdata & _).
  split; [exact Hplot|]. rewrite Hdata. reflexivity.
Defined.

(** X9. After every successful [extract_change_point_date], whatever the
    samples and the credible mass, [plot_posterior_tau] on the updated
    object succeeds: the stored samples are the pooled tau draws, and
    the truncated median it indexes the date axis with is a valid
    position whenever the rounded median was one. *)
Theorem plot_succeeds_after_extraction
        (self self' : SingleChangePointModel) (credible : Q) (est : ChangePointEstimate) :
  extract_change_point_date self credible = Ok (self', est) ->
  tau_posterior self' = Some (samples est) /\
  dates self' = dates self /\
  exists label, plot_posterior_tau self' = Ok label.
Proof.
  unfold extract_change_point_date.
  destruct (trace self) as [tr|]; [|discriminate].
  destruct (median (posterior_flatten tau tr)) as [med| | |] eqn:Hmed; try discriminate.
  rewrite py_int_inject_Z.
  destruct (getitem (dates self) (round med)) as [d0|] eqn:Hmode; [|discriminate].
  cbn [bind].
  destruct (quantile _ _) as [q_lo|]; [|discriminate]. cbn [bind].
  destruct (quantile _ _) as [q_hi|]; [|discriminate]. cbn [bind].
  destruct (getitem (dates self) (py_int q_lo)) as [d1|]; [|discriminate]. cbn [bind].
  destruct (getitem (dates self) (py_int q_hi)) as [d2|]; [|discriminate]. cbn [bind].
  intros [= <- <-]. cbn [tau_posterior samples dates].
  split; [reflexivity|]. split; [reflexivity|].
  unfold plot_posterior_tau. cbn [tau_posterior dates]. rewrite Hmed.
  apply getitem_ok_in_range in Hmode.
  destruct (@getitem_in_range _ (dates self) (py_int med)) as (label & Hlabel & _).
  - destruct (py_int_between_zero_and_round med); lia.
  - now exists label.
Qed.

Lemma plot_succeeds_after_extraction_witness :
  exists self' est,
    extract_change_point_date (fitted [2.75; 2.75; 2.75; 2.75] five_dates) 0.95
    = Ok (self', est) /\
    tau_posterior self' = Some (samples est) /\
    exists label, plot_posterior_tau self' = Ok label.
Proof.
  eexists _, _. split; [reflexivity|].
  destruct (@plot_succeeds_after_extraction
              (fitted [2.75; 2.75; 2.75; 2.75] five_dates) _ 0.95 _ eq_refl)
    as (Hstored & _ & Hplot).
  split; [exact Hstored|exact Hplot].
Defined.

(** What the extraction computes when every tau draw lies on the date
    axis: the median, the two quantiles in order around it, and the
    three dates read at the rounded median and the truncated
    quantiles. *)
Lemma extract_on_axis (self : SingleChangePointModel) (tr : InferenceData) (credible : Q) :
  trace self = Some tr ->
  pooled tr <> [] ->
  0 <= credible <= 1 ->
  (forall d, In d (pooled tr) ->
             0 <= tau d <= inject_Z (Z.of_nat (length (dates self)) - 1)) ->
  exists med,
    median (posterior_flatten tau tr) = Fin med /\
    let q_lo := linear_quantile (sort (posterior_flatten tau tr)) ((1 - credible) / 2) in
    let q_hi := linear_quantile (sort (posterior_flatten tau tr)) (1 - (1 - credible) / 2) in
    extract_change_point_date self credible
    = Ok ({| data := data self;
             dates := dates self;
             model := model self;
             trace := trace self;
             tau_posterior := Some (posterior_flatten tau tr) |},
          {| mode_index := round med;
             mode_date := nth (Z.to_nat (round med)) (dates self) 0%Z;
             credible_interval :=
               (nth (Z.to_nat (Qfloor q_lo)) (dates self) 0%Z,
                nth (Z.to_nat (Qfloor q_hi)) (dates self) 0%Z);
             samples := posterior_flatten tau tr |}) /\
    (0 <= Qfloor q_lo <= Qfloor med)%Z /\
    (Qfloor med <= Qfloor q_hi <= Z.of_nat (length (dates self)) - 1)%Z /\
    (Qfloor med <= round med <= Z.of_nat (length (dates self)) - 1)%Z /\
    0 <= med.
Proof.
  intros Htr Hne [Hc0 Hc1] Hrange.
  set (nd := Z.of_nat (length (dates self))) in *.
  set (taus := posterior_flatten tau tr).
  assert (Htaus : taus = map tau (pooled tr)) by apply posterior_flatten_pooled.
  assert (Hne' : taus <> []).
  { rewrite Htaus. destruct (pooled tr); [congruence|discriminate]. }
  assert (Hall : forall x, In x (sort taus) -> 0 <= x <= inject_Z (nd - 1)).
  { intros x Hx. apply (Permutation_in _ (sort_perm taus)) in Hx.
    rewrite Htaus in Hx. apply in_map_iff in Hx.
    destruct Hx as (d & <- & Hd). now apply Hrange. }
  assert (Hsne : sort taus <> []).
  { intros E. apply Hne', Permutation_nil. rewrite <- E. apply sort_perm. }
  pose proof (sort_sorted taus) as Hsorted.
  assert (Hlo : 0 <= (1 - credible) / 2 <= 1) by (split; lra_halves).
  assert (Hhi : 0 <= 1 - (1 - credible) / 2 <= 1) by (split; lra_halves).
  assert (Hlh : (1 - credible) / 2 <= 1 # 2) by lra_halves.
  assert (Hhh : 1 # 2 <= 1 - (1 - credible) / 2) by lra_halves.
  assert (Hhalf : 0 <= 1 # 2 <= 1) by (split; lra).
  destruct (median_defined Hne') as (med & Hmed).
  pose proof (median_is_half_quantile _ Hmed) as Hmq.
  exists med. split; [exact Hmed|]. intros q_lo q_hi.
  assert (Hq1 : q_lo <= med).
  { rewrite Hmq. apply linear_quantile_mono; try assumption; tauto. }
  assert (Hq2 : med <= q_hi).
  { rewrite Hmq. apply linear_quantile_mono; try assumption; tauto. }
  pose proof (linear_quantile_within Hsorted Hsne Hlo Hall) as Hwlo. fold q_lo in Hwlo.
  pose proof (linear_quantile_within Hsorted Hsne Hhi Hall) as Hwhi. fold q_hi in Hwhi.
  pose proof (linear_quantile_within Hsorted Hsne Hhalf Hall) as Hwmed.
  rewrite <- Hmq in Hwmed.
  assert (Hfloor0 : forall x, 0 <= x -> (0 <= Qfloor x)%Z).
  { intros x Hx. change 0%Z with (Qfloor 0). now apply Qfloor_resp_le. }
  assert (HfloorN : forall x, x <= inject_Z (nd - 1) -> (Qfloor x <= nd - 1)%Z).
  { intros x Hx. rewrite <- (Qfloor_Z (nd - 1)). now apply Qfloor_resp_le. }
  pose proof (round_floor med) as Hround.
  pose proof (@round_le_integer med (nd - 1) (proj2 Hwmed)) as HroundN.
  pose proof (Hfloor0 _ (proj1 Hwlo)) as Hl0.
  pose proof (Hfloor0 _ (proj1 Hwmed)) as Hm0.
  pose proof (HfloorN _ (proj2 Hwhi)) as HhN.
  pose proof (HfloorN _ (proj2 Hwlo)) as HlN.
  pose proof (Qfloor_resp_le _ _ Hq1) as Hlm.
  pose proof (Qfloor_resp_le _ _ Hq2) as Hmh.
  split; [|repeat split; try lia; tauto].
  unfold extract_change_point_date. rewrite Htr. fold taus. rewrite Hmed.
  rewrite py_int_inject_Z, !quantile_ok by assumption.
  fold q_lo q_hi.
  rewrite (@getitem_nonneg _ (dates self) (round med) 0%Z) by (fold nd; lia).
  cbn [bind].
  rewrite (py_int_nonneg (proj1 Hwlo)), (py_int_nonneg (proj1 Hwhi)).
  rewrite (@getitem_nonneg _ (dates self) (Qfloor q_lo) 0%Z) by (fold nd; lia).
  rewrite (@getitem_nonneg _ (dates self) (Qfloor q_hi) 0%Z) by (fold nd; lia).
  reflexivity.
Qed.

(** X10. When every tau draw lies on the date axis, the credible mass is
    in [0,1] and the axis is ascending, the date that
    [plot_posterior_tau] prints for the median lies inside the credible
    interval that [extract_change_point_date] returned, and is never
    after the change-point date the extraction reported. *)
Theorem plot_label_inside_interval
        (self : SingleChangePointModel) (tr : InferenceData) (credible : Q) :
  trace self = Some tr ->
  pooled tr <> [] ->
  0 <= credible <= 1 ->
  (forall d, In d (pooled tr) ->
             0 <= tau d <= inject_Z (Z.of_nat (length (dates self)) - 1)) ->
  StronglySorted Z.le (dates self) ->
  exists self' est label,
    extract_change_point_date self credible = Ok (self', est) /\
    plot_posterior_tau self' = Ok label /\
    (fst (credible_interval est) <= label <= snd (credible_interval est))%Z /\
    (label <= mode_date est)%Z.
Proof.
  intros Htr Hne Hc Hrange Hasc.
  destruct (@extract_on_axis self tr credible Htr Hne Hc Hrange)
    as (med & Hmed & Hext & Hlo & Hhi & Hmode & Hpos).
  cbv zeta in Hext, Hlo, Hhi.
  eexists _, _, _. split; [exact Hext|].
  unfold plot_posterior_tau. cbn [tau_posterior dates]. rewrite Hmed.
  rewrite (py_int_nonneg Hpos).
  rewrite (@getitem_nonneg _ (dates self) (Qfloor med) 0%Z) by lia.
  split; [reflexivity|]. cbn [credible_interval mode_date fst snd].
  repeat split; apply sorted_dates_nth; try exact Hasc; lia.
Qed.

Lemma plot_label_inside_interval_witness :
  exists self' est label,
    extract_change_point_date (fitted [2.75; 2.75; 2.75; 2.75] five_dates) 0.95
    = Ok (self', est) /\
    plot_posterior_tau self' = Ok label /\
    (fst (credible_interval est) <= label <= snd (credible_interval est))%Z /\
    (label <= mode_date est)%Z.
Proof.
  apply (@plot_label_inside_interval
           (fitted [2.75; 2.75; 2.75; 2.75] five_dates)
           [map draw_at [2.75; 2.75; 2.75; 2.75]] 0.95 eq_refl).
  - discriminate.
  - split; unfold Qle; simpl; lia.
  - intros d Hd. simpl in Hd.
    destruct Hd as [<-|[<-|[<-|[<-|[]]]]]; split; unfold Qle; simpl; lia.
  - unfold five_dates. repeat constructor; lia.
Defined.

(** X11. Credible intervals are nested: when every tau draw lies on the
    date axis and the axis is ascending, a larger credible mass gives
    an interval that starts no later and ends no earlier, around the
    same change-point date. *)
Theorem larger_mass_wider_interval
        (self : SingleChangePointModel) (tr : InferenceData) (narrow wide : Q) :
  trace self = Some tr ->
  pooled tr <> [] ->
  0 <= narrow -> narrow <= wide -> wide <= 1 ->
  (forall d, In d (pooled tr) ->
             0 <= tau d <= inject_Z (Z.of_nat (length (dates self)) - 1)) ->
  StronglySorted Z.le (dates self) ->
  exists s1 e1 s2 e2,
    extract_change_point_date self narrow = Ok (s1, e1) /\
    extract_change_point_date self wide = Ok (s2, e2) /\
    mode_date e1 = mode_date e2 /\
    (fst (credible_interval e2) <= fst (credible_interval e1))%Z /\
    (snd (credible_interval e1) <= snd (credible_interval e2))%Z.
Proof.
  intros Htr Hne Hn0 Hnw Hw1 Hrange Hasc.
  assert (Hcn : 0 <= narrow <= 1) by (split; [exact Hn0|now apply Qle_trans with wide]).
  assert (Hcw : 0 <= wide <= 1) by (split; [now apply Qle_trans with narrow|exact Hw1]).
  destruct (@extract_on_axis self tr narrow Htr Hne Hcn Hrange)
    as (med & Hmed & Hext1 & Hlo1 & Hhi1 & _ & _).
  destruct (@extract_on_axis self tr wide Htr Hne Hcw Hrange)
    as (med' & Hmed' & Hext2 & Hlo2 & Hhi2 & _ & _).
  rewrite Hmed in Hmed'. injection Hmed' as <-.
  cbv zeta in *.
  set (taus := posterior_flatten tau tr) in *.
  assert (Hne' : sort taus <> []).
  { intros E. pose proof (sort_length taus) as Hl. rewrite E in Hl.
    unfold taus in Hl. rewrite posterior_flatten_pooled, length_map in Hl.
    destruct (pooled tr); [congruence|discriminate]. }
  pose proof (sort_sorted taus) as Hsorted.
  assert (Hlow : linear_quantile (sort taus) ((1 - wide) / 2)
                 <= linear_quantile (sort taus) ((1 - narrow) / 2)).
  { apply linear_quantile_mono; try assumption; lra_halves. }
  assert (Hhigh : linear_quantile (sort taus) (1 - (1 - narrow) / 2)
                  <= linear_quantile (sort taus) (1 - (1 - wide) / 2)).
  { apply linear_quantile_mono; try assumption; lra_halves. }
  apply Qfloor_resp_le in Hlow, Hhigh.
  eexists _, _, _, _. split; [exact Hext1|]. split; [exact Hext2|].
  cbn [mode_date credible_interval fst snd].
  split; [reflexivity|].
  split; apply sorted_dates_nth; try exact Hasc; lia.
Qed.

Lemma larger_mass_wider_interval_witness :
  exists s1 e1 s2 e2,
    extract_change_point_date (fitted [0.4; 1.2; 2.2; 3.4; 3.9] five_dates) 0.5 = Ok (s1, e1) /\
    extract_change_point_date (fitted [0.4; 1.2; 2.2; 3.4; 3.9] five_dates) 0.95 = Ok (s2, e2) /\
    mode_date e1 = mode_date e2 /\
    (fst (credible_interval e2) <= fst (credible_interval e1))%Z /\
    (snd (credible_interval e1) <= snd (credible_interval e2))%Z.
Proof.
  apply (@larger_mass_wider_interval
           (fitted [0.4; 1.2; 2.2; 3.4; 3.9] five_dates)
           [map draw_at [0.4; 1.2; 2.2; 3.4; 3.9]] 0.5 0.95 eq_refl).
  - discriminate.
  - unfold Qle; simpl; lia.
  - unfold Qle; simpl; lia.
  - unfold Qle; simpl; lia.
  - intros d Hd. simpl in Hd.
    destruct Hd as [<-|[<-|[<-|[<-|[<-|[]]]]]]; split; unfold Qle; simpl; lia.
  - unfold five_dates. repeat constructor; lia.
Defined.

End ExtractionAndPlot.

(** ** When the log-return preparation fails, and the stationarity tests *)

Section LogReturnEdges.

Import TimeSeriesAnalysis Spec Examples.
Local Open Scope Q_scope.

Lemma filter_keeps_all {A : Type} (p : A -> bool) (l : list A) :
  (forall x, In x l -> p x = true) -> filter p l = l.
Proof.
  induction l as [|x l IH]; intros H; [reflexivity|]. cbn [filter].
  rewrite (H x) by now left. f_equal. apply IH. intros y Hy. apply H. now right.
Qed.

Lemma filter_full_length {A : Type} (p : A -> bool) (l : list A) :
  length (filter p l) = length l -> forall x, In x l -> p x = true.
Proof.
  induction l as [|x l IH]; intros Hlen y Hy; [destruct Hy|].
  cbn [filter] in Hlen. pose proof (filter_length_le p l) as Hle.
  destruct (p x) eqn:E; cbn [length] in Hlen; [|lia].
  destruct Hy as [<-|Hy]; [exact E|]. apply IH; [lia|exact Hy].
Qed.

Lemma map_snd_combine_same {A B : Type} (l : list A) (r : list B) :
  length l = length r -> map snd (combine l r) = r.
Proof.
  revert r. induction l as [|a l IH]; intros [|b r] H; simpl in *; try lia; [reflexivity|].
  f_equal. apply IH. lia.
Qed.

Lemma map_fst_combine_same {A B : Type} (l : list A) (r : list B) :
  length l = length r -> map fst (combine l r) = l.
Proof.
  revert r. induction l as [|a l IH]; intros [|b r] H; simpl in *; try lia; [reflexivity|].
  f_equal. apply IH. lia.
Qed.

(** The logarithms of the consecutive ratios, before missing values are
    dropped. *)
Lemma ratio_logs (prev : Row) (rest : list Row) :
  map np_log
      (map2 fdiv (map (fun r => Fin (Price r)) rest)
            (removelast (Fin (Price prev) :: map (fun r => Fin (Price r)) rest)))
  = map (fun pr => np_log (fdiv (Fin (snd pr)) (Fin (fst pr))))
        (consecutive_prices prev rest).
Proof.
  revert prev. induction rest as [|r t IH]; intros prev; [reflexivity|].
  cbn [map consecutive_prices fst snd].
  change (removelast (Fin (Price prev) :: Fin (Price r) :: map (fun r0 => Fin (Price r0)) t))
    with (Fin (Price prev)
            :: removelast (Fin (Price r) :: map (fun r0 => Fin (Price r0)) t)).
  cbn [map2 map]. f_equal. apply IH.
Qed.

Lemma table_logs (rows : list Row) :
  dropna (map np_log (map2 fdiv (map (fun r => Fin (Price r)) rows)
                           (shift1 (map (fun r => Fin (Price r)) rows))))
  = filter notna (map (fun pr => np_log (fdiv (Fin (snd pr)) (Fin (fst pr))))
                      (price_pairs rows)).
Proof.
  destruct rows as [|r0 rest]; [reflexivity|].
  cbn [map shift1 price_pairs]. rewrite <- ratio_logs. reflexivity.
Qed.

Lemma price_pairs_length (rows : list Row) :
  length (price_pairs rows) = length (tl rows).
Proof.
  destruct rows as [|r0 rest]; [reflexivity|]. cbn [price_pairs tl].
  revert r0. induction rest as [|r t IH]; intros r0; simpl; [reflexivity|].
  now rewrite IH.
Qed.

Lemma Qeq_bool_false (x y : Q) : Qeq_bool x y = false -> ~ x == y.
Proof. intros H E. apply Qeq_bool_iff in E. congruence. Qed.

(** A consecutive ratio survives [dropna] exactly when its logarithm is
    a number or an infinity. *)
Lemma kept_by_dropna (earlier later : Q) :
  notna (np_log (fdiv (Fin later) (Fin earlier))) = true <-> log_is_kept (earlier, later).
Proof.
  unfold log_is_kept, fdiv.
  destruct (Qeq_bool earlier 0) eqn:Ea.
  - apply Qeq_bool_iff in Ea.
    destruct (Qeq_bool later 0) eqn:El.
    + apply Qeq_bool_iff in El. cbn. split; [discriminate|].
      intros [H _]. specialize (H Ea). rewrite El in H. exfalso. apply (Qlt_irrefl _ H).
    + apply Qeq_bool_false in El.
      destruct (Qle_bool 0 later) eqn:Ep; cbn.
      * apply Qle_bool_iff in Ep. split; [intros _|reflexivity].
        split; [intros _|intros H; contradiction].
        apply Qle_lt_or_eq in Ep. destruct Ep as [Hlt|Heq]; [exact Hlt|].
        exfalso. apply El. symmetry. exact Heq.
      * split; [discriminate|]. intros [H _]. specialize (H Ea).
        apply Qlt_le_weak, Qle_bool_iff in H. congruence.
  - apply Qeq_bool_false in Ea. unfold np_log.
    destruct (Qlt_bool 0 (later / earlier)) eqn:Ep.
    + apply Qlt_bool_iff in Ep. cbn. split; [intros _|reflexivity].
      split; [intros H; contradiction|intros _; now apply Qlt_le_weak].
    + apply Qlt_bool_false_iff in Ep.
      destruct (Qeq_bool (later / earlier) 0) eqn:Ez; cbn.
      * apply Qeq_bool_iff in Ez. split; [intros _|reflexivity].
        split; [intros H; contradiction|intros _]. rewrite Ez. apply Qle_refl.
      * apply Qeq_bool_false in Ez. split; [discriminate|]. intros [_ H].
        specialize (H Ea). exfalso. apply Ez. now apply Qle_antisym.
Qed.

(** X12. [compute_log_returns] returns exactly when no consecutive price
    ratio has a [nan] logarithm, that is when every ratio is
    non-negative or divides a positive price by zero; the result then
    has one entry per consecutive pair, dated by its later point.  As
    soon as one ratio is negative, or is 0/0, the value is dropped and
    reassigning the dates raises [ValueError]. *)
Theorem log_returns_fail_on_dropped_values (self : TimeSeriesAnalyzer) :
  ((forall pr, In pr (price_pairs (df self)) -> log_is_kept pr) ->
   exists self' series,
     compute_log_returns self = Ok (self', series) /\
     map fst series = map Date (tl (df self)) /\
     log_returns self' = Some series) /\
  ((exists pr, In pr (price_pairs (df self)) /\ ~ log_is_kept pr) ->
   compute_log_returns self = Raise ValueError).
Proof.
  unfold compute_log_returns. rewrite table_logs.
  set (logs := map (fun pr => np_log (fdiv (Fin (snd pr)) (Fin (fst pr))))
                   (price_pairs (df self))).
  assert (Hlen : length logs = length (map Date (tl (df self)))).
  { unfold logs. now rewrite !length_map, price_pairs_length. }
  split.
  - intros Hall.
    assert (Hkeep : filter notna logs = logs).
    { apply filter_keeps_all. intros v Hv. unfold logs in Hv.
      apply in_map_iff in Hv. destruct Hv as ([a b] & <- & Hin).
      apply kept_by_dropna. now apply Hall. }
    rewrite Hkeep, Hlen, Nat.eqb_refl. cbn [negb].
    eexists _, _. split; [reflexivity|].
    split; [apply map_fst_combine_same; now rewrite Hlen|reflexivity].
  - intros ([a b] & Hin & Hbad).
    destruct (length (filter notna logs) =? length (map Date (tl (df self))))%nat eqn:E;
      [|reflexivity].
    exfalso. apply Hbad. apply kept_by_dropna.
    apply Nat.eqb_eq in E. rewrite <- Hlen in E.
    apply (filter_full_length _ _ E). unfold logs.
    change (np_log (fdiv (Fin b) (Fin a)))
      with ((fun pr => np_log (fdiv (Fin (snd pr)) (Fin (fst pr)))) (a, b)).
    now apply in_map.
Qed.

Lemma log_returns_fail_on_dropped_values_witness :
  (exists self' series,
     compute_log_returns {| df := zero_price_rows; log_returns := None |}
     = Ok (self', series) /\
     map fst series = [1%Z; 2%Z] /\
     log_returns self' = Some series) /\
  compute_log_returns {| df := negative_price_rows; log_returns := None |}
  = Raise ValueError.
Proof.
  split.
  - apply (proj1 (log_returns_fail_on_dropped_values
                    {| df := zero_price_rows; log_returns := None |})).
    intros pr Hin. simpl in Hin.
    destruct Hin as [<-|[<-|[]]]; apply kept_by_dropna; reflexivity.
  - apply (proj2 (log_returns_fail_on_dropped_values
                    {| df := negative_price_rows; log_returns := None |})).
    exists (1, -1). split; [now left|].
    intros H. apply kept_by_dropna in H. discriminate H.
Defined.

End LogReturnEdges.

Section StationarityFacts.

Import TimeSeriesAnalysis Spec Examples.
Local Open Scope Q_scope.
Local Open Scope string_scope.

Variable adfuller_prices : list Q -> result (Q * Q).
Variable adfuller_returns : list logval -> result (Q * Q).

(** What a successful [compute_log_returns] leaves behind. *)
Lemma log_returns_shape (self self' : TimeSeriesAnalyzer) (series : list (Z * logval)) :
  compute_log_returns self = Ok (self', series) ->
  df self' = df self /\
  log_returns self' = Some series /\
  length series = (length (df self) - 1)%nat /\
  (forall v, In v (map snd series) -> notna v = true).
Proof.
  unfold compute_log_returns.
  set (values := dropna _). set (index := map Date (tl (df self))).
  destruct (length values =? length index)%nat eqn:E; cbn [negb]; [|discriminate].
  apply Nat.eqb_eq in E. intros [= <- <-]. cbn [df log_returns].
  split; [reflexivity|]. split; [reflexivity|]. split.
  - rewrite length_combine, E, Nat.min_id. unfold index. rewrite length_map.
    destruct (df self); simpl; lia.
  - rewrite map_snd_combine_same by (symmetry; exact E).
    intros v Hv. unfold values, dropna in Hv. apply filter_In in Hv. tauto.
Qed.

Lemma adf_test_too_short {V : Type} (adfuller : list V -> result (Q * Q))
      (isna : V -> bool) (series : list V) (label : string) :
  (length series < 10)%nat -> adf_test adfuller isna series label = Raise ValueError.
Proof.
  intros H. unfold adf_test.
  pose proof (filter_length_le (fun v => negb (isna v)) series) as Hle.
  replace (length (filter (fun v => negb (isna v)) series) <? 10)%nat with true;
    [reflexivity|]. symmetry. apply Nat.ltb_lt. lia.
Qed.

Lemma adf_test_ok_length {V : Type} (adfuller : list V -> result (Q * Q))
      (isna : V -> bool) (series : list V) (label : string) (report : AdfReport) :
  adf_test adfuller isna series label = Ok report -> (10 <= length series)%nat.
Proof.
  intros H. destruct (Nat.lt_ge_cases (length series) 10) as [Hlt|Hge]; [|exact Hge].
  rewrite adf_test_too_short in H by exact Hlt. discriminate.
Qed.

(** X13. On a fresh analyzer [analyze_stationarity] needs at least eleven
    price rows: with fewer than ten it raises [ValueError] before any
    test statistic is computed, and it never returns on ten rows or
    fewer, because the log-return series is one point shorter than the
    price series and each series must have ten points.  With eleven rows
    or more, log returns computed and both ADF runs returning, it
    returns the two reports, each flagged stationary exactly when its
    p-value is below 0.05, and keeps the computed log returns. *)
Theorem stationarity_needs_eleven_rows (self : TimeSeriesAnalyzer) :
  log_returns self = None ->
  ((length (df self) < 10)%nat ->
   analyze_stationarity adfuller_prices adfuller_returns self = Raise ValueError) /\
  (forall r, analyze_stationarity adfuller_prices adfuller_returns self = Ok r ->
             (11 <= length (df self))%nat) /\
  (forall self' series stat_p p_p stat_r p_r,
     (11 <= length (df self))%nat ->
     compute_log_returns self = Ok (self', series) ->
     adfuller_prices (map Price (df self)) = Ok (stat_p, p_p) ->
     adfuller_returns (map snd series) = Ok (stat_r, p_r) ->
     exists price_adf returns_adf,
       analyze_stationarity adfuller_prices adfuller_returns self
       = Ok (self', (price_adf, returns_adf)) /\
       log_returns self' = Some series /\
       p_value price_adf = p_p /\ stationary price_adf = Qlt_bool p_p 0.05 /\
       p_value returns_adf = p_r /\ stationary returns_adf = Qlt_bool p_r 0.05).
Proof.
  intros Hnone. unfold analyze_stationarity. rewrite Hnone.
  destruct (compute_log_returns self) as [[self1 lr]|e] eqn:Hc.
  - destruct (@log_returns_shape _ _ _ Hc) as (Hdf & Hlr & Hlen & Hkept).
    cbn [bind fst]. rewrite Hdf, Hlr.
    split; [|split].
    + intros Hshort. rewrite adf_test_too_short; [reflexivity|].
      now rewrite length_map.
    + intros r Hr.
      destruct (adf_test adfuller_prices _ _ _) as [rp|] eqn:Hp; [|discriminate].
      cbn [bind] in Hr.
      destruct (adf_test adfuller_returns _ _ _) as [rr|] eqn:Hret; [|discriminate].
      apply adf_test_ok_length in Hret. rewrite length_map in Hret. lia.
    + intros self' series stat_p p_p stat_r p_r Hn [= <- <-] Hap Har.
      unfold adf_test.
      rewrite (filter_keeps_all (fun v : Q => negb false)) by reflexivity.
      rewrite (filter_keeps_all (fun v => negb (negb (notna v))))
        by (intros v Hv; rewrite negb_involutive; now apply Hkept).
      rewrite !length_map, Hlen, Hap, Har.
      replace (length (df self) <? 10)%nat with false
        by (symmetry; apply Nat.ltb_ge; lia).
      replace (length (df self) - 1 <? 10)%nat with false
        by (symmetry; apply Nat.ltb_ge; lia).
      cbn [bind fst snd]. eexists _, _. split; [reflexivity|].
      cbn [p_value stationary]. repeat split. exact Hlr.
  - assert (He : e = ValueError).
    { unfold compute_log_returns in Hc.
      destruct (negb _) in Hc; [now injection Hc as <-|discriminate]. }
    subst e. cbn [bind]. split; [reflexivity|]. split; [discriminate|].
    intros; discriminate.
Qed.

End StationarityFacts.

Lemma stationarity_needs_eleven_rows_witness :
  (exists self' price_adf returns_adf,
     TimeSeriesAnalysis.analyze_stationarity
       Examples.adf_constant Examples.adf_constant
       {| TimeSeriesAnalysis.df := Examples.eleven_rows;
          TimeSeriesAnalysis.log_returns := None |}
     = Ok (self', (price_adf, returns_adf)) /\
     TimeSeriesAnalysis.stationary price_adf = true /\
     TimeSeriesAnalysis.stationary returns_adf = true) /\
  TimeSeriesAnalysis.analyze_stationarity
    Examples.adf_constant Examples.adf_constant
    {| TimeSeriesAnalysis.df := Examples.positive_rows;
       TimeSeriesAnalysis.log_returns := None |}
  = Raise ValueError.
Proof.
  split.
  - destruct (@stationarity_needs_eleven_rows
                Examples.adf_constant Examples.adf_constant
                {| TimeSeriesAnalysis.df := Examples.eleven_rows;
                   TimeSeriesAnalysis.log_returns := None |} eq_refl)
      as (_ & _ & Hok).
    destruct (Hok _ _ (-3)%Q 0.01%Q (-3)%Q 0.01%Q ltac:(vm_compute; lia)
                  eq_refl eq_refl eq_refl)
      as (rp & rr & Hrun & _ & _ & Hsp & _ & Hsr).
    eexists _, rp, rr. split; [exact Hrun|]. split; [exact Hsp|exact Hsr].
  - apply (@stationarity_needs_eleven_rows
             Examples.adf_constant Examples.adf_constant
             {| TimeSeriesAnalysis.df := Examples.positive_rows;
                TimeSeriesAnalysis.log_returns := None |} eq_refl).
    vm_compute. lia.
Defined.

(** ** The point estimates against the samples *)

Section PointEstimates.

Import ChangePointModel Spec Examples.
Local Open Scope Q_scope.
Local Open Scope string_scope.

Lemma round_is_nearest (x : Q) :
  x - (1 # 2) <= inject_Z (round x) <= x + (1 # 2).
Proof.
  pose proof (Qfloor_le x) as Hf. pose proof (Qlt_floor x) as Hc.
  rewrite inject_Z_plus in Hc. change (inject_Z 1) with 1 in Hc.
  unfold round.
  destruct (Qcompare (x - inject_Z (Qfloor x)) (1 # 2)) eqn:E.
  - apply Qeq_alt in E.
    destruct (Z.even (Qfloor x)); [|rewrite inject_Z_plus; change (inject_Z 1) with 1];
      split; lra.
  - apply Qlt_alt in E. split; lra.
  - apply Qgt_alt in E. rewrite inject_Z_plus. change (inject_Z 1) with 1. split; lra.
Qed.

(** X14. Whenever [extract_change_point_date] succeeds, the samples it
    returns are the pooled tau draws of the trace, in chain order, and
    [mode_index] is an integer nearest to their median: it differs from
    the median by at most one half. *)
Theorem mode_index_is_nearest_to_median
        (self self' : SingleChangePointModel) (tr : InferenceData)
        (credible : Q) (est : ChangePointEstimate) :
  trace self = Some tr ->
  extract_change_point_date self credible = Ok (self', est) ->
  samples est = map tau (pooled tr) /\
  exists med,
    median (samples est) = Fin med /\
    med - (1 # 2) <= inject_Z (mode_index est) <= med + (1 # 2).
Proof.
  intros Htr. unfold extract_change_point_date. rewrite Htr.
  destruct (median (posterior_flatten tau tr)) as [med| | |] eqn:Hmed; try discriminate.
  rewrite py_int_inject_Z.
  destruct (getitem (dates self) (round med)) as [d0|]; [|discriminate]. cbn [bind].
  destruct (quantile _ _) as [q_lo|]; [|discriminate]. cbn [bind].
  destruct (quantile _ _) as [q_hi|]; [|discriminate]. cbn [bind].
  destruct (getitem (dates self) (py_int q_lo)) as [d1|]; [|discriminate]. cbn [bind].
  destruct (getitem (dates self) (py_int q_hi)) as [d2|]; [|discriminate]. cbn [bind].
  intros [= <- <-]. cbn [samples mode_index].
  split; [apply posterior_flatten_pooled|].
  exists med. split; [exact Hmed|apply round_is_nearest].
Qed.

Lemma mode_index_is_nearest_to_median_witness :
  exists self' est med,
    extract_change_point_date (fitted [1.2; 2.2; 3.4] five_dates) 0.95 = Ok (self', est) /\
    samples est = [1.2; 2.2; 3.4] /\
    median (samples est) = Fin med /\
    med - (1 # 2) <= inject_Z (mode_index est) <= med + (1 # 2).
Proof.
  eexists _, _.
  destruct (@mode_index_is_nearest_to_median
              (fitted [1.2; 2.2; 3.4] five_dates) _ [map draw_at [1.2; 2.2; 3.4]]
              0.95 _ eq_refl eq_refl)
    as (Hs & med & Hmed & Hnear).
  exists med. split; [reflexivity|]. split; [exact Hs|]. split; [exact Hmed|exact Hnear].
Defined.

Lemma share_above_half (c n : nat) :
  (0 < n)%nat ->
  (1 # 2) < inject_Z (Z.of_nat c) / inject_Z (Z.of_nat n) ->
  (n < 2 * c)%nat.
Proof.
  intros Hn H.
  assert (Hnq : 0 < inject_Z (Z.of_nat n)).
  { change 0 with (inject_Z 0). rewrite <- Zlt_Qlt. lia. }
  apply (Qmult_lt_compat_r _ _ _ Hnq) in H.
  rewrite (Qmult_comm (_ / _)), Qmult_div_r in H
    by (intros E; rewrite E in Hnq; apply (Qlt_irrefl _ Hnq)).
  unfold Qlt, Qmult, inject_Z in H. cbn [Qnum Qden] in H. lia.
Qed.

(** X15. The median and the probabilities of one summary agree: for a
    posterior with at least one draw, if [prob_mean_increase] is above
    one half then [mean_shift_median] is above 0.01, and if
    [prob_mean_decrease] is above one half then [mean_shift_median] is
    below -0.01. *)
Theorem median_follows_majority (self : SingleChangePointModel) (tr : InferenceData) :
  trace self = Some tr ->
  pooled tr <> [] ->
  exists d m p_inc p_dec,
    quantify_impact self = Ok d /\
    lookup "mean_shift_median" d = Some (Float (Fin m)) /\
    lookup "prob_mean_increase" d = Some (Float (Fin p_inc)) /\
    lookup "prob_mean_decrease" d = Some (Float (Fin p_dec)) /\
    ((1 # 2) < p_inc -> 0.01 < m) /\
    ((1 # 2) < p_dec -> m < -0.01).
Proof.
  intros Htr Hne.
  pose proof (quantify_impact_on_draws _ Htr Hne) as Hd. cbv zeta in Hd.
  assert (Hne' : map mean_shift_of (pooled tr) <> [])
    by (destruct (pooled tr); [congruence|discriminate]).
  destruct (median_defined Hne') as (m & Hm). rewrite Hm in Hd.
  rewrite !(fraction_nonempty _ Hne) in Hd.
  assert (Hn : (0 < length (pooled tr))%nat)
    by (destruct (pooled tr); [congruence|simpl; lia]).
  eexists _, m, _, _. split; [exact Hd|].
  split; [reflexivity|]. split; [reflexivity|]. split; [reflexivity|].
  split; intros Hmaj; apply (share_above_half _ Hn) in Hmaj.
  - apply (median_above _ _ Hm). now rewrite length_map, count_map.
  - apply (median_below _ _ Hm). now rewrite length_map, count_map.
Qed.

Lemma median_follows_majority_witness :
  exists d m p_dec,
    quantify_impact falling_fit = Ok d /\
    lookup "mean_shift_median" d = Some (Float (Fin m)) /\
    lookup "prob_mean_decrease" d = Some (Float (Fin p_dec)) /\
    (1 # 2) < p_dec /\
    m < -0.01.
Proof.
  destruct (@median_follows_majority falling_fit _ eq_refl ltac:(discriminate))
    as (d & m & p_inc & p_dec & Hd & Hm & _ & Hdec & _ & Hbelow).
  assert (Hmaj : (1 # 2) < p_dec).
  { vm_compute in Hd. injection Hd as <-. vm_compute in Hdec.
    injection Hdec as <-. reflexivity. }
  exists d, m, p_dec. repeat split; try assumption. exact (Hbelow Hmaj).
Defined.

End PointEstimates.

Section VolatilityWording.

Import ChangePointModel EventAnalyzer Spec Examples.
Local Open Scope Q_scope.
Local Open Scope string_scope.

(** X16. In the sentence built from the summary of a posterior with at
    least one draw, the volatility clause says "increased" exactly when
    [vol_shift_median] is strictly positive; a median volatility shift
    of exactly zero is worded "decreased". *)
Theorem volatility_wording_follows_sign
        (analyzer : EventImpactAnalyzer) (event : Event)
        (self : SingleChangePointModel) (tr : InferenceData) (before after : Q) :
  trace self = Some tr ->
  pooled tr <> [] ->
  exists d n vm,
    quantify_impact self = Ok d /\
    lookup "vol_shift_median" d = Some (Float (Fin vm)) /\
    quantify_event_impact analyzer event d before after = Ok n /\
    (vol_verb n = "increased" <-> 0 < vm) /\
    (vm <= 0 -> vol_verb n = "decreased").
Proof.
  intros Htr Hne.
  pose proof (quantify_impact_on_draws _ Htr Hne) as Hd. cbv zeta in Hd.
  assert (Hv' : map vol_shift_of (pooled tr) <> [])
    by (destruct (pooled tr); [congruence|discriminate]).
  destruct (median_defined Hv') as (vm & Hvm). rewrite Hvm in Hd.
  eexists _, _, vm. split; [exact Hd|]. split; [reflexivity|].
  split; [apply narrative_on_summary_shape|].
  cbn [vol_verb]. unfold gt.
  destruct (Qlt_bool 0 vm) eqn:E.
  - apply Qlt_bool_iff in E. split; [tauto|].
    intros Hle. exfalso. apply (Qlt_not_le _ _ E Hle).
  - apply Qlt_bool_false_iff in E. split; [|reflexivity].
    split; [discriminate|]. intros Hpos. exfalso. apply (Qlt_not_le _ _ Hpos E).
Qed.

Lemma volatility_wording_follows_sign_witness :
  exists d n vm,
    quantify_impact balanced_fit = Ok d /\
    lookup "vol_shift_median" d = Some (Float (Fin vm)) /\
    quantify_event_impact catalogue (event_on 10) d 80 95 = Ok n /\
    vm <= 0 /\
    vol_verb n = "decreased".
Proof.
  destruct (@volatility_wording_follows_sign
              catalogue (event_on 10) balanced_fit _ 80 95 eq_refl ltac:(discriminate))
    as (d & n & vm & Hd & Hvm & Hn & _ & Hzero).
  assert (Hle : vm <= 0).
  { vm_compute in Hd. injection Hd as <-. vm_compute in Hvm.
    injection Hvm as <-. unfold Qle. simpl. lia. }
  exists d, n, vm. repeat split; try assumption. exact (Hzero Hle).
Defined.

End VolatilityWording.

(** ** Convergence diagnostics *)

Section FloatOrder.

Local Open Scope Q_scope.

Ltac float_cases :=
  unfold lt, gt; intros;
  repeat match goal with
         | x : float |- _ => destruct x
         end;
  cbn in *; try reflexivity; try discriminate;
  rewrite ?Qlt_bool_iff, ?Qlt_bool_false_iff in *.

Lemma float_lt_irrefl (a : float) : lt a a = false.
Proof. float_cases. apply Qle_refl. Qed.

Lemma float_lt_asym (a b : float) : lt a b = true -> lt b a = false.
Proof. float_cases. now apply Qlt_le_weak. Qed.

(** [a <= b <= c] gives [a <= c], the middle one being a number. *)
Lemma float_le_trans (a b c : float) :
  is_nan b = false -> lt b a = false -> lt c b = false -> lt c a = false.
Proof. float_cases. eapply Qle_trans; eassumption. Qed.

(** [y <= m < c] gives [y < c]. *)
Lemma float_le_lt_trans (y m c : float) :
  is_nan y = false -> lt m y = false -> lt m c = true -> lt y c = true.
Proof. float_cases. eapply Qle_lt_trans; eassumption. Qed.

(** [c < m <= y] gives [c < y]. *)
Lemma float_lt_le_trans (c m y : float) :
  is_nan y = false -> lt c m = true -> lt y m = false -> lt c y = true.
Proof. float_cases. eapply Qlt_le_trans; eassumption. Qed.

End FloatOrder.

Section SeriesExtrema.

Import ChangePointModel.
Local Open Scope Q_scope.

Lemma pick_max_cases (m y : float) :
  (pick_max m y = m \/ pick_max m y = y) /\
  lt (pick_max m y) m = false /\ lt (pick_max m y) y = false.
Proof.
  unfold pick_max. destruct (lt m y) eqn:E.
  - split; [now right|]. split; [now apply float_lt_asym|apply float_lt_irrefl].
  - split; [now left|]. split; [apply float_lt_irrefl|exact E].
Qed.

Lemma pick_min_cases (m y : float) :
  (pick_min m y = m \/ pick_min m y = y) /\
  lt m (pick_min m y) = false /\ lt y (pick_min m y) = false.
Proof.
  unfold pick_min. destruct (lt y m) eqn:E.
  - split; [now right|]. split; [now apply float_lt_asym|apply float_lt_irrefl].
  - split; [now left|]. split; [apply float_lt_irrefl|exact E].
Qed.

Lemma fold_max_spec (t : list float) (x : float) :
  (forall y, In y (x :: t) -> is_nan y = false) ->
  In (fold_left pick_max t x) (x :: t) /\
  forall y, In y (x :: t) -> lt (fold_left pick_max t x) y = false.
Proof.
  revert x. induction t as [|a t IH]; intros x Hnum; cbn [fold_left].
  - split; [now left|]. intros y [<-|[]]. apply float_lt_irrefl.
  - destruct (pick_max_cases x a) as (Hpick & Hx & Ha).
    assert (Hp : is_nan (pick_max x a) = false).
    { destruct Hpick as [->| ->]; apply Hnum; [now left|right; now left]. }
    destruct (IH (pick_max x a)) as (Hin & Hmax).
    { intros y [<-|Hy]; [exact Hp|]. apply Hnum. now right; right. }
    split.
    + destruct Hin as [Heq|Hin]; [|now right; right].
      rewrite <- Heq. destruct Hpick as [->| ->]; [now left|right; now left].
    + intros y [<-|[<-|Hy]].
      * apply float_le_trans with (pick_max x a); [exact Hp|exact Hx|].
        apply Hmax. now left.
      * apply float_le_trans with (pick_max x a); [exact Hp|exact Ha|].
        apply Hmax. now left.
      * apply Hmax. now right.
Qed.

Lemma fold_min_spec (t : list float) (x : float) :
  (forall y, In y (x :: t) -> is_nan y = false) ->
  In (fold_left pick_min t x) (x :: t) /\
  forall y, In y (x :: t) -> lt y (fold_left pick_min t x) = false.
Proof.
  revert x. induction t as [|a t IH]; intros x Hnum; cbn [fold_left].
  - split; [now left|]. intros y [<-|[]]. apply float_lt_irrefl.
  - destruct (pick_min_cases x a) as (Hpick & Hx & Ha).
    assert (Hp : is_nan (pick_min x a) = false).
    { destruct Hpick as [->| ->]; apply Hnum; [now left|right; now left]. }
    destruct (IH (pick_min x a)) as (Hin & Hmin).
    { intros y [<-|Hy]; [exact Hp|]. apply Hnum. now right; right. }
    split.
    + destruct Hin as [Heq|Hin]; [|now right; right].
      rewrite <- Heq. destruct Hpick as [->| ->]; [now left|right; now left].
    + intros y [<-|[<-|Hy]].
      * apply float_le_trans with (pick_min x a); [exact Hp| |exact Hx].
        apply Hmin. now left.
      * apply float_le_trans with (pick_min x a); [exact Hp| |exact Ha].
        apply Hmin. now left.
      * apply Hmin. now right.
Qed.

Lemma numbers_of (col : list float) (y : float) :
  In y (filter (fun x => negb (is_nan x)) col) <-> In y col /\ is_nan y = false.
Proof. rewrite filter_In, negb_true_iff. reflexivity. Qed.

(** The maximum that skips [nan] is below a bound exactly when the
    column holds a number and every number in it is below the bound. *)
Lemma series_max_below (col : list float) (c : Q) :
  lt (series_max col) (Fin c) = true <->
  (exists x, In x col /\ is_nan x = false) /\
  (forall y, In y col -> is_nan y = false -> lt y (Fin c) = true).
Proof.
  unfold series_max.
  destruct (filter (fun x => negb (is_nan x)) col) as [|x t] eqn:E.
  - split; [discriminate|]. intros ((x & Hx & Hnum) & _).
    assert (Hin : In x (filter (fun x => negb (is_nan x)) col)) by now apply numbers_of.
    rewrite E in Hin. destruct Hin.
  - assert (Hnum : forall y, In y (x :: t) -> is_nan y = false).
    { intros y Hy. rewrite <- E in Hy. now apply numbers_of in Hy. }
    destruct (@fold_max_spec t x Hnum) as (Hin & Hmax).
    split.
    + intros Hlt. split.
      * exists x. apply numbers_of. rewrite E. now left.
      * intros y Hy Hn. apply float_le_lt_trans with (fold_left pick_max t x);
          [exact Hn| |exact Hlt].
        apply Hmax. rewrite <- E. now apply numbers_of.
    + intros (_ & Hall). rewrite <- E in Hin. apply numbers_of in Hin.
      now apply Hall.
Qed.

(** The minimum that skips [nan] is above a bound exactly when the
    column holds a number and every number in it is above the bound. *)
Lemma series_min_above (col : list float) (c : Q) :
  gt (series_min col) (Fin c) = true <->
  (exists x, In x col /\ is_nan x = false) /\
  (forall y, In y col -> is_nan y = false -> gt y (Fin c) = true).
Proof.
  unfold series_min.
  destruct (filter (fun x => negb (is_nan x)) col) as [|x t] eqn:E.
  - split; [discriminate|]. intros ((x & Hx & Hnum) & _).
    assert (Hin : In x (filter (fun x => negb (is_nan x)) col)) by now apply numbers_of.
    rewrite E in Hin. destruct Hin.
  - assert (Hnum : forall y, In y (x :: t) -> is_nan y = false).
    { intros y Hy. rewrite <- E in Hy. now apply numbers_of in Hy. }
    destruct (@fold_min_spec t x Hnum) as (Hin & Hmin).
    split.
    + intros Hgt. split.
      * exists x. apply numbers_of. rewrite E. now left.
      * intros y Hy Hn. change (lt (Fin c) y = true).
        apply float_lt_le_trans with (fold_left pick_min t x);
          [exact Hn|exact Hgt|].
        apply Hmin. rewrite <- E. now apply numbers_of.
    + intros (_ & Hall). rewrite <- E in Hin. apply numbers_of in Hin.
      now apply Hall.
Qed.

End SeriesExtrema.

Section RoundedTable.

Import ChangePointModel Examples.
Local Open Scope Q_scope.
Local Open Scope string_scope.

(** Exactly half way above an even integer, rounding goes down. *)
Lemma round_half_above_even (x : Q) (z : Z) :
  Z.even z = true -> x == inject_Z z + (1 # 2) -> round x = z.
Proof.
  intros Heven Hx.
  assert (Hfloor : Qfloor x = z).
  { apply Qfloor_unique; rewrite Hx; [|rewrite inject_Z_plus; change (inject_Z 1) with 1]; lra. }
  unfold round. rewrite Hfloor.
  assert (Hhalf : x - inject_Z z == 1 # 2) by (rewrite Hx; ring).
  apply Qeq_alt in Hhalf. rewrite Hhalf, Heven. reflexivity.
Qed.

Lemma round_le_even (x : Q) (z : Z) :
  Z.even z = true -> ((round x <= z)%Z <-> x <= inject_Z z + (1 # 2)).
Proof.
  intros Heven. pose proof (round_is_nearest x) as [Hlo Hhi]. split.
  - intros Hle. rewrite Zle_Qle in Hle. lra.
  - intros Hx. destruct (Z_le_gt_dec (round x) z) as [Hle|Hgt]; [exact Hle|].
    assert (Hup : inject_Z (z + 1) <= inject_Z (round x)) by (rewrite <- Zle_Qle; lia).
    rewrite inject_Z_plus in Hup. change (inject_Z 1) with 1 in Hup.
    assert (Heq : x == inject_Z z + (1 # 2)) by lra.
    rewrite (@round_half_above_even x z Heven Heq) in Hgt. lia.
Qed.

(** The tabulated R-hat is below 1.05 exactly when the computed one is
    at most 1.045. *)
Lemma tabulated_rhat_below (r : Q) :
  lt (round_decimals 2 (Fin r)) (Fin 1.05) = true <-> r <= 1.045.
Proof.
  unfold lt, gt. cbn [round_decimals].
  change (10 ^ Z.of_nat 2)%Z with 100%Z. rewrite Qlt_bool_iff.
  transitivity ((round (r * inject_Z 100) <= 104)%Z).
  - generalize (round (r * inject_Z 100)). intros z.
    unfold Qlt, Qdiv, Qmult, Qinv, inject_Z. cbn. lia.
  - rewrite (@round_le_even _ 104 eq_refl).
    change (inject_Z 100) with 100. change (inject_Z 104) with 104. split; lra.
Qed.

(** The tabulated bulk ESS is above 200 exactly when the computed one is
    above 200.5. *)
Lemma tabulated_ess_above (e : Q) :
  gt (round_decimals 0 (Fin e)) (Fin 200) = true <-> 200.5 < e.
Proof.
  unfold gt. cbn [round_decimals].
  change (10 ^ Z.of_nat 0)%Z with 1%Z. rewrite Qlt_bool_iff.
  transitivity (~ (round (e * inject_Z 1) <= 200)%Z).
  - generalize (round (e * inject_Z 1)). intros z.
    unfold Qlt, Qdiv, Qmult, Qinv, inject_Z. cbn. lia.
  - rewrite (@round_le_even _ 200 eq_refl).
    change (inject_Z 1) with 1. change (inject_Z 200) with 200. split.
    + intros H. apply Qnot_le_lt. intros Hle. apply H. lra.
    + intros H Hle. apply (Qlt_not_le _ _ H). lra.
Qed.

Variables az_rhat az_ess_bulk : InferenceData -> string -> float.

(** C8, amended. On a sampled trace the verdict is taken on the table
    that [az.summary] returns for tau, mu1, mu2, sigma1, sigma2 (the
    code's names of tau, mu_pre, mu_post, sigma_pre, sigma_post), whose
    R-hat entries are rounded to two decimals and whose bulk ESS entries
    to whole numbers.  [converged] is true exactly when the table holds
    at least one R-hat and one ESS that are numbers, every R-hat entry
    that is a number is strictly below 1.05 and every ESS entry that is
    a number is strictly above 200; [nan] entries are skipped, and when
    all entries of a column are [nan] the verdict is false.  In terms
    of the values before rounding, an entry passes exactly when R-hat is
    at most 1.045, respectively when the ESS exceeds 200.5. *)
Theorem converged_iff_rounded_table (self : SingleChangePointModel) (tr : InferenceData) :
  trace self = Some tr ->
  let vars := ["tau"; "mu1"; "mu2"; "sigma1"; "sigma2"] in
  let tabulated_rhat v := round_decimals 2 (az_rhat tr v) in
  let tabulated_ess v := round_decimals 0 (az_ess_bulk tr v) in
  exists rep,
    diagnose_convergence az_rhat az_ess_bulk self = Ok rep /\
    map var_name (summary rep) = vars /\
    map r_hat (summary rep) = map tabulated_rhat vars /\
    map ess_bulk (summary rep) = map tabulated_ess vars /\
    r_hat_max rep = series_max (map tabulated_rhat vars) /\
    ess_min rep = series_min (map tabulated_ess vars) /\
    (converged rep = true <->
     (exists v, In v vars /\ is_nan (tabulated_rhat v) = false) /\
     (forall v, In v vars -> is_nan (tabulated_rhat v) = false ->
                lt (tabulated_rhat v) (Fin 1.05) = true) /\
     (exists v, In v vars /\ is_nan (tabulated_ess v) = false) /\
     (forall v, In v vars -> is_nan (tabulated_ess v) = false ->
                gt (tabulated_ess v) (Fin 200) = true)) /\
    (forall v r, az_rhat tr v = Fin r ->
                 (lt (tabulated_rhat v) (Fin 1.05) = true <-> r <= 1.045)) /\
    (forall v e, az_ess_bulk tr v = Fin e ->
                 (gt (tabulated_ess v) (Fin 200) = true <-> 200.5 < e)).
Proof.
  intros Htr vars tabulated_rhat tabulated_ess.
  unfold diagnose_convergence. rewrite Htr. fold vars.
  set (rows := az_summary az_rhat az_ess_bulk tr vars).
  assert (Hn : map var_name rows = vars).
  { unfold rows, az_summary. rewrite map_map. cbn [var_name]. apply map_id. }
  assert (Hr : map r_hat rows = map tabulated_rhat vars).
  { unfold rows, az_summary. rewrite map_map. reflexivity. }
  assert (He : map ess_bulk rows = map tabulated_ess vars).
  { unfold rows, az_summary. rewrite map_map. reflexivity. }
  eexists. split; [reflexivity|]. cbn [summary r_hat_max ess_min converged].
  rewrite Hr, He.
  split; [exact Hn|]. split; [reflexivity|]. split; [reflexivity|].
  split; [reflexivity|]. split; [reflexivity|]. split; [|split].
  - rewrite andb_true_iff, series_max_below, series_min_above. split.
    + intros (((x & Hx & Hxn) & Hmax) & ((y & Hy & Hyn) & Hmin)).
      apply in_map_iff in Hx. destruct Hx as (vx & <- & Hvx).
      apply in_map_iff in Hy. destruct Hy as (vy & <- & Hvy).
      split; [now exists vx|]. split; [intros v Hv; apply Hmax; now apply in_map|].
      split; [now exists vy|]. intros v Hv; apply Hmin; now apply in_map.
    + intros ((vx & Hvx & Hxn) & Hmax & (vy & Hvy & Hyn) & Hmin). split; split.
      * exists (tabulated_rhat vx). split; [now apply in_map|exact Hxn].
      * intros x Hx. apply in_map_iff in Hx. destruct Hx as (v & <- & Hv). now apply Hmax.
      * exists (tabulated_ess vy). split; [now apply in_map|exact Hyn].
      * intros y Hy. apply in_map_iff in Hy. destruct Hy as (v & <- & Hv). now apply Hmin.
  - intros v r Hv. unfold tabulated_rhat. rewrite Hv. apply tabulated_rhat_below.
  - intros v e Hv. unfold tabulated_ess. rewrite Hv. apply tabulated_ess_above.
Qed.

End RoundedTable.

(** C8, on the code: with two chains of four draws, an R-hat of 1.046
    for every variable and a bulk ESS of 450, the largest R-hat is
    strictly below 1.05 and the smallest ESS strictly above 200, yet the
    report says [converged = false]: the table holds 1.05 for every
    R-hat, and 1.05 is not below 1.05.  Likewise an ESS of 200.4 is
    tabulated as 200. *)
Lemma rhat_below_threshold_not_converged :
  (1.046 < 1.05)%Q /\ (200 < 450)%Q /\ (200 < 200.4)%Q /\
  (exists rep,
     ChangePointModel.diagnose_convergence
       (fun _ _ => Fin 1.046) (fun _ _ => Fin 450) Examples.diagnosed_fit = Ok rep /\
     ChangePointModel.r_hat_max rep = Fin (inject_Z 105 / inject_Z 100) /\
     ChangePointModel.converged rep = false) /\
  (exists rep,
     ChangePointModel.diagnose_convergence
       (fun _ _ => Fin 1.01) (fun _ _ => Fin 200.4) Examples.diagnosed_fit = Ok rep /\
     ChangePointModel.ess_min rep = Fin (inject_Z 200 / inject_Z 1) /\
     ChangePointModel.converged rep = false).
Proof.
  repeat split; try (eexists; repeat split).
Qed.

Lemma converged_iff_rounded_table_witness :
  exists rep,
    ChangePointModel.diagnose_convergence
      (fun _ _ => Fin 1.012) (fun _ _ => Fin 450.3) Examples.diagnosed_fit = Ok rep /\
    ChangePointModel.converged rep = true.
Proof.
  destruct (@converged_iff_rounded_table
              (fun _ _ => Fin 1.012) (fun _ _ => Fin 450.3)
              Examples.diagnosed_fit _ eq_refl)
    as (rep & Hrep & _ & _ & _ & _ & _ & Hiff & _).
  exists rep. split; [exact Hrep|]. apply Hiff.
  split; [exists "tau"%string; split; [now left|reflexivity]|].
  split; [intros v _ _; reflexivity|].
  split; [exists "tau"%string; split; [now left|reflexivity]|].
  intros v _ _; reflexivity.
Defined.
